(** * FolderEx: hierarchy construction and text rendering

    A shallow embedding of the tree builders, the sort pass, the text
    renderer and the expansion-state queries of
    [src/components/TextFolderStructure.jsx] and
    the [FolderStructure] component, with the properties the
    specification states about them.

    JavaScript strings are modelled by [string]; a non-ASCII character
    of a literal stands as its UTF-8 bytes.  Every operation the code
    applies to strings (concatenation, [===], [split('/')],
    [length > 0], removal of a [.zip] suffix) acts alike on both
    encodings. *)

From Stdlib Require Import ZArith String Ascii List Permutation Sorted Lia Bool.
From stdpp Require Import base option list sorting strings gmap pretty.

Local Open Scope string_scope.
Local Open Scope list_scope.

(** ** Strings *)

Module Js.

(** [s.split('/')]: the pieces between separators, empty ones kept. *)
Fixpoint split (sep : ascii) (s : string) : list string :=
  match s with
  | EmptyString => [EmptyString]
  | String c rest =>
      if Ascii.eqb c sep then EmptyString :: split sep rest
      else match split sep rest with
           | [] => [String c EmptyString]
           | piece :: pieces => String c piece :: pieces
           end
  end.

(** One letter against a lower-case ASCII letter, ignoring case, as
    the [i] flag of a regular expression does for ASCII letters. *)
Definition eqb_nocase (lower c : ascii) : bool :=
  Ascii.eqb c lower
  || Ascii.eqb c (ascii_of_nat (nat_of_ascii lower - 32)).

(** The whole input is [.zip] up to case: where [/\.zip$/i] matches. *)
Definition is_dot_zip (s : string) : bool :=
  match s with
  | String d (String z (String i (String p EmptyString))) =>
      Ascii.eqb d "."%char && eqb_nocase "z"%char z
      && eqb_nocase "i"%char i && eqb_nocase "p"%char p
  | _ => false
  end.

(** [s.replace(/\.zip$/i, '')] *)
Fixpoint replace_zip_suffix (s : string) : string :=
  if is_dot_zip s then EmptyString
  else match s with
       | EmptyString => EmptyString
       | String c rest => String c (replace_zip_suffix rest)
       end.

(** [Array.prototype.sort(cmp)].  ECMA-262 requires the sort to be
    stable and, for a consistent comparator, the result to be ordered
    by it; that fixes the result, which the stable insertion sort
    below computes. An element goes before the first one that it
    does not compare greater than. *)
Fixpoint sort_insert {A : Type} (cmp : A -> A -> Z) (x : A) (l : list A)
  : list A :=
  match l with
  | [] => [x]
  | y :: l' => if (cmp x y <=? 0)%Z then x :: l
               else y :: sort_insert cmp x l'
  end.

Definition sort {A : Type} (cmp : A -> A -> Z) (l : list A) : list A :=
  foldr (sort_insert cmp) [] l.

(** An [Error] object; only its [message] is read. *)
Record Error := mkError { message : string }.

(** The outcome of a call that may throw. *)
Inductive Result (A : Type) : Type :=
| Ok (a : A)
| Throw (e : Error).
Arguments Ok {A} a.
Arguments Throw {A} e.

(** Sequencing: a throw skips the rest. *)
Definition bind_flip {A B : Type} (k : A -> Result B) (r : Result A)
  : Result B :=
  match r with
  | Ok a => k a
  | Throw e => Throw e
  end.

(** The [TypeError] of reading property [prop] of [undefined]
    (the message is V8's). *)
Definition TypeError_undefined (prop : string) : Error :=
  mkError ("Cannot read properties of undefined (reading '"
           +:+ prop +:+ "')").

End Js.

#[global] Instance Result_ret : MRet Js.Result := @Js.Ok.
#[global] Instance Result_bind : MBind Js.Result := @Js.bind_flip.

(** ** Data model *)

Inductive NodeType := directory | file.

Definition NodeType_eqb (a b : NodeType) : bool :=
  match a, b with
  | directory, directory | file, file => true
  | _, _ => false
  end.

(** An entry of a decoded archive (JSZip's [ZipObject]): its name, the
    key of [content.files], and its directory flag. *)
Record ZipObject := mkZipObject { zip_name : string; dir : bool }.

(** The entries of a dropped directory (File and Directory Entries
    API).  A directory entry carries what its reader delivers: the
    results of the successive [readEntries] calls, [Some batch] for the
    success callback and [None] for the error callback; once the list
    is exhausted the reader reports success with no entries. *)
Inductive FileSystemEntry :=
| FileEntry (f : string)
| DirectoryEntry (d : FileSystemDirectoryEntry)
with FileSystemDirectoryEntry :=
| mkDirectoryEntry (dir_name : string)
                   (reader : list (option (list FileSystemEntry))).

Definition entry_name (item : FileSystemEntry) : string :=
  match item with
  | FileEntry f => f
  | DirectoryEntry (mkDirectoryEntry n _) => n
  end.

Definition isDirectory (item : FileSystemEntry) : bool :=
  match item with
  | FileEntry _ => false
  | DirectoryEntry _ => true
  end.

(** What backs a File node: [zipEntry] in an archive tree, [fileEntry]
    in a directory tree. *)
Inductive Handle :=
| zipEntry (z : ZipObject)
| fileEntry (item : FileSystemEntry).

#[local] Set Warnings "-register-all".

(** A node of the tree: [{name, type: 'directory', path, children}] or
    [{name, type: 'file', path, zipEntry | fileEntry}]. *)
Inductive Node :=
| DirNode (name path : string) (children : list Node)
| FileNode (name path : string) (handle : Handle).

Definition node_name (n : Node) : string :=
  match n with DirNode name _ _ | FileNode name _ _ => name end.

Definition node_path (n : Node) : string :=
  match n with DirNode _ path _ | FileNode _ path _ => path end.

Definition node_type (n : Node) : NodeType :=
  match n with DirNode _ _ _ => directory | FileNode _ _ _ => file end.

(** [node.children]: [undefined] on a File node. *)
Definition node_children (n : Node) : option (list Node) :=
  match n with DirNode _ _ cs => Some cs | FileNode _ _ _ => None end.

(** The height of a tree, the fuel of the recursions that descend
    through a rearranged children list. *)
Fixpoint height (n : Node) : nat :=
  match n with
  | DirNode _ _ cs => S (foldr (fun c h => Nat.max (height c) h) 0%nat cs)
  | FileNode _ _ _ => 0%nat
  end.

(** ** Sort pass *)

Section SortPass.

(** [a.localeCompare(b)]: negative, zero or positive. *)
Variable localeCompare : string -> string -> Z.

(** The comparator both builders hand to [sort]:
    [(a, b) => { if (a.type === b.type) return
    a.name.localeCompare(b.name); return a.type === 'directory' ? -1
    : 1; }] *)
Definition compareNodes (a b : Node) : Z :=
  if NodeType_eqb (node_type a) (node_type b)
  then localeCompare (node_name a) (node_name b)
  else match node_type a with directory => (-1)%Z | file => 1%Z end.

(** [sortStructure], [fuel] levels deep: the children are sorted,
    then each child of the sorted array is visited. *)
Fixpoint sortStructure_upto (fuel : nat) (node : Node) : Node :=
  match fuel, node with
  | S fuel', DirNode name path children =>
      DirNode name path
        (map (sortStructure_upto fuel') (Js.sort compareNodes children))
  | _, _ => node
  end.

(** [sortStructure(node)]: [node.children?.sort(...);
    node.children?.forEach(sortStructure)].  The height of the tree
    is all the fuel the descent can use ([sortStructure_DirNode]
    below is the equation of the source). *)
Definition sortStructure (node : Node) : Node :=
  sortStructure_upto (height node) node.

End SortPass.

(** ** Archive builder *)

Definition MAX_FILE_SIZE_MB : Z := 50.

(** The dropped [File]: its [size] and [name] properties, and what
    [JSZip.loadAsync] makes of its bytes, an error message or
    [content.files] as the pairs that [Object.keys(content.files)]
    enumerates, in that order. *)
Record DroppedFile := mkDroppedFile {
  file_size : Z;
  file_name : string;
  decoded : string + list (string * ZipObject)
}.

(** The calls made to the outside. *)
Inductive Event :=
| LoadAsync (f : DroppedFile).

(** The root object of an archive tree, with its [fileMap] property. *)
Record ZipRoot := mkZipRoot {
  root : Node;
  fileMap : gmap string ZipObject
}.

(** [relativePath.split('/').filter(part => part.length > 0)] *)
Definition path_parts (relativePath : string) : list string :=
  filter (fun part => (0 <? String.length part)%nat = true)
         (Js.split "/"%char relativePath).

(** [parts.forEach((part, i) => ...)] from index [i] on, with
    [len = parts.length].  [current] is the node the walk stands on
    and [fm] is [root.fileMap]; the result is that node and the map as
    the remaining iterations leave them.  The node handed to the
    recursive call is the one [current] is reassigned to; it sits in
    the [children] array of the node left behind, which is not
    touched again, so its final state is put back at its index. *)
Fixpoint forEach_part (entry : ZipObject) (len i : nat)
    (parts : list string) (current : Node) (fm : gmap string ZipObject)
    {struct parts} : Js.Result (Node * gmap string ZipObject) :=
  match parts with
  | [] => mret (current, fm)
  | part :: rest =>
      let isDirectory := dir entry || (i <? len - 1)%nat in
      match current with
      | FileNode _ _ _ => Js.Throw (Js.TypeError_undefined "find")
      | DirNode cname cpath children =>
          match list_find (fun child => node_name child = part) children with
          | Some (k, existing) =>
              if isDirectory then
                '(existing', fm') ←
                  forEach_part entry len (S i) rest existing fm;
                mret (DirNode cname cpath (<[k := existing']> children), fm')
              else forEach_part entry len (S i) rest current fm
          | None =>
              if isDirectory then
                let newDir := DirNode part (cpath +:+ "/" +:+ part) [] in
                '(newDir', fm') ←
                  forEach_part entry len (S i) rest newDir fm;
                mret (DirNode cname cpath (children ++ [newDir']), fm')
              else
                let fileNode :=
                  FileNode part (cpath +:+ "/" +:+ part) (zipEntry entry) in
                forEach_part entry len (S i) rest
                  (DirNode cname cpath (children ++ [fileNode]))
                  (<[node_path fileNode := entry]> fm)
          end
      end
  end.

(** The body of [Object.keys(content.files).forEach(relativePath =>
    ...)]: the walk starts at the root. *)
Definition add_entry (st : Node * gmap string ZipObject)
    (key : string * ZipObject) : Js.Result (Node * gmap string ZipObject) :=
  let '(relativePath, entry) := key in
  let parts := path_parts relativePath in
  forEach_part entry (length parts) 0 parts st.1 st.2.

Fixpoint forEach_entry (files : list (string * ZipObject))
    (st : Node * gmap string ZipObject)
    : Js.Result (Node * gmap string ZipObject) :=
  match files with
  | [] => mret st
  | key :: files' => st' ← add_entry st key; forEach_entry files' st'
  end.

Section ArchiveBuilder.

Variable localeCompare : string -> string -> Z.

(** The body of the [try] block once the archive is decoded: the
    root is created, the entries are merged into it and the tree is
    sorted. *)
Definition build_zip_tree (name : string)
    (files : list (string * ZipObject)) : Js.Result ZipRoot :=
  let root0 := DirNode (Js.replace_zip_suffix name) "" [] in
  '(root1, fm) ← forEach_entry files (root0, ∅);
  mret (mkZipRoot (sortStructure localeCompare root1) fm).

(** [extractZipStructure(file)]: the calls made to the outside and
    the outcome.  Whatever is thrown inside the [try] block is
    rethrown by the [catch] as
    [Failed to process ZIP: ${err.message}]. *)
Definition extractZipStructure (file : DroppedFile)
  : list Event * Js.Result ZipRoot :=
  let '(events, outcome) :=
    if (file_size file >? MAX_FILE_SIZE_MB * 1024 * 1024)%Z
    then ([], Js.Throw (Js.mkError ("File exceeds "
                          +:+ pretty MAX_FILE_SIZE_MB +:+ "MB limit")))
    else ([LoadAsync file],
          match decoded file with
          | inl msg => Js.Throw (Js.mkError msg)
          | inr files => build_zip_tree (file_name file) files
          end) in
  (events,
   match outcome with
   | Js.Ok r => Js.Ok r
   | Js.Throw err =>
       Js.Throw (Js.mkError ("Failed to process ZIP: " +:+ Js.message err))
   end).

End ArchiveBuilder.

(** ** Directory builder *)

(** [reader.readEntries(resolve, () => resolve([]))]: what the promise
    resolves to.  One call is made, so the first result the reader
    delivers decides: its batch, or [[]] for the error callback. *)
Definition readEntries (reader : list (option (list FileSystemEntry)))
  : list FileSystemEntry :=
  match reader with
  | Some entries :: _ => entries
  | _ => []
  end.

Section DirectoryBuilder.

Variable localeCompare : string -> string -> Z.

(** [readDirectoryStructure(entry, currentPath = '')].  The loop
    runs over [readEntries reader]; the cases of the reader are
    spelled out so that the recursion is seen to descend
    ([readDirectoryStructure_eq] below gives the plain form). *)
Fixpoint readDirectoryStructure (entry : FileSystemDirectoryEntry)
    (currentPath : string) {struct entry} : Node :=
  match entry with
  | mkDirectoryEntry name reader =>
      let path := if (0 <? String.length currentPath)%nat
                  then currentPath +:+ "/" +:+ name else name in
      let push := fun item =>
        match item with
        | DirectoryEntry d => readDirectoryStructure d path
        | FileEntry f => FileNode f (path +:+ "/" +:+ f) (fileEntry item)
        end in
      let children :=
        match reader with
        | Some entries :: _ => map push entries
        | _ => []
        end in
      DirNode name path (Js.sort (compareNodes localeCompare) children)
  end.

(** The path a directory gets under [currentPath]. *)
Definition directory_path (currentPath name : string) : string :=
  if (0 <? String.length currentPath)%nat
  then currentPath +:+ "/" +:+ name else name.

(** The node the loop pushes for [item], in a directory of path
    [path]. *)
Definition item_node (path : string) (item : FileSystemEntry) : Node :=
  match item with
  | DirectoryEntry d => readDirectoryStructure d path
  | FileEntry f => FileNode f (path +:+ "/" +:+ f) (fileEntry item)
  end.

End DirectoryBuilder.

(** ** Text renderer *)

(** [l.flatMap((x, i) => f(x, i))] where [f] may throw. *)
Definition flatMap_result {A B : Type} (f : A -> nat -> Js.Result (list B))
    (l : list A) : Js.Result (list B) :=
  (fix go (i : nat) (l : list A) : Js.Result (list B) :=
     match l with
     | [] => mret []
     | x :: l' => ys ← f x i; zs ← go (S i) l'; mret (ys ++ zs)
     end) 0%nat l.

(** [renderStructure(node, prefix = '', isLast = true, isRoot = true)].
    A File node has no [children], so taken as a root it makes
    [node.children.flatMap] throw. *)
Fixpoint renderStructure (node : Node) (prefix : string)
    (isLast isRoot : bool) {struct node} : Js.Result (list string) :=
  if isRoot then
    let rootLine := node_name node +:+ "/" in
    match node with
    | FileNode _ _ _ => Js.Throw (Js.TypeError_undefined "flatMap")
    | DirNode _ _ children =>
        childLines ←
          flatMap_result
            (fun child i =>
               renderStructure child "    "
                 (i =? length children - 1)%nat false)
            children;
        mret (rootLine :: childLines)
    end
  else
    let connector := if isLast then "└── " else "├── " in
    let line :=
      prefix +:+ connector +:+ node_name node
      +:+ (match node_type node with directory => "/" | file => "" end) in
    match node with
    | FileNode _ _ _ => mret [line]
    | DirNode _ _ [] => mret [line]
    | DirNode _ _ children =>
        let childPrefix := prefix +:+ (if isLast then "    " else "│   ") in
        childLines ←
          flatMap_result
            (fun child i =>
               renderStructure child childPrefix
                 (i =? length children - 1)%nat false)
            children;
        mret (line :: childLines)
    end.

(** ** Expansion state *)

(** [getAllFolderPaths(node)] *)
Fixpoint getAllFolderPaths (node : Node) : list string :=
  match node with
  | FileNode _ _ _ => []
  | DirNode _ path children =>
      fold_left (fun paths child => paths ++ getAllFolderPaths child)
                children [path]
  end.

(** [areAllFoldersExpanded()], of the [structure] prop ([null] when
    there is no tree) and the [expandedFolders] set. *)
Definition areAllFoldersExpanded (structure : option Node)
    (expandedFolders : gset string) : bool :=
  match structure with
  | None => false
  | Some node =>
      let allPaths := getAllFolderPaths node in
      (0 <? length allPaths)%nat
      && forallb (fun path => bool_decide (path ∈ expandedFolders)) allPaths
  end.

(** ** Code-point order, a [localeCompare] to run the code with *)

Definition codepointCompare (a b : string) : Z :=
  match String.compare a b with
  | Lt => (-1)%Z
  | Eq => 0%Z
  | Gt => 1%Z
  end.

(** One rule of canonical composition: [e] followed by U+0301 (bytes
    204 129) becomes U+00E9 (bytes 195 169).  ECMA-262 has
    [localeCompare] return 0 on canonically equivalent strings;
    [canonCompare] does so for the strings this rule identifies. *)
Fixpoint compose (s : string) : string :=
  match s with
  | String "e" (String "204" (String "129" rest)) =>
      String "195" (String "169" (compose rest))
  | String c rest => String c (compose rest)
  | EmptyString => EmptyString
  end.

Definition canonCompare (a b : string) : Z :=
  codepointCompare (compose a) (compose b).

(** ** Vocabulary of the properties *)

(** What the sort needs of a comparator of strings: the sign flips
    when the arguments are swapped, and "not greater" is transitive. *)
Definition consistent (cmp : string -> string -> Z) : Prop :=
  (forall a b, Z.sgn (cmp b a) = (- Z.sgn (cmp a b))%Z) /\
  (forall a b c, (cmp a b <= 0)%Z -> (cmp b c <= 0)%Z -> (cmp a c <= 0)%Z).

(** "Not greater", for a comparator. *)
Definition le_by {A : Type} (cmp : A -> A -> Z) (a b : A) : Prop :=
  (cmp a b <= 0)%Z.

(** [d] is a node of the tree [t], at any depth. *)
Inductive within : Node -> Node -> Prop :=
| within_here t : within t t
| within_child d c name path cs :
    c ∈ cs -> within d c -> within d (DirNode name path cs).

(** [c] is a child of [d]. *)
Definition child_of (c d : Node) : Prop :=
  exists cs, node_children d = Some cs /\ c ∈ cs.

(** The canonical ordering of a children array: no File before a
    Directory, and the names of two nodes of one kind in
    non-decreasing order. *)
Definition ordered (cmp : string -> string -> Z) (cs : list Node) : Prop :=
  forall i j a b, (i < j)%nat -> cs !! i = Some a -> cs !! j = Some b ->
    (node_type a = file -> node_type b = file) /\
    (node_type a = node_type b -> (cmp (node_name a) (node_name b) <= 0)%Z).

(** The node reached from [t] by the names [q], the first child of
    that name being taken at each level, as [find] does. *)
Fixpoint lookup_path (q : list string) (t : Node) : option Node :=
  match q with
  | [] => Some t
  | s :: q' =>
      match t with
      | FileNode _ _ _ => None
      | DirNode _ _ cs =>
          match list_find (fun c => node_name c = s) cs with
          | Some (_, c) => lookup_path q' c
          | None => None
          end
      end
  end.

Definition kind_at (q : list string) (t : Node) : option NodeType :=
  node_type <$> lookup_path q t.

(** The kind an entry gives the node of its [k]-th segment
    ([k = length q], counted from 1): [zipEntry.dir || i < parts.length
    - 1] with [i = k - 1]. *)
Definition implied_kind (entry : ZipObject) (parts q : list string)
  : NodeType :=
  if dir entry || (length q <? length parts)%nat then directory else file.

(** The kind an entry of segments [parts] implies for the node at
    [q], if [q] leads to one of its segments. *)
Definition implied_at (entry : ZipObject) (parts q : list string)
  : option NodeType :=
  if bool_decide (q <> [] /\ q `prefix_of` parts)
  then Some (implied_kind entry parts q) else None.

Definition implies (key : string * ZipObject) (q : list string)
  : option NodeType :=
  implied_at key.2 (path_parts key.1) q.

(** No name at a level is implied both as a file and as a directory. *)
Definition no_kind_conflict (files : list (string * ZipObject)) : Prop :=
  forall e1 e2 q k1 k2, e1 ∈ files -> e2 ∈ files ->
    implies e1 q = Some k1 -> implies e2 q = Some k2 -> k1 = k2.

(** The same, as a test. *)
Definition no_kind_conflictb (files : list (string * ZipObject)) : bool :=
  forallb (fun e1 =>
    forallb (fun n =>
      let q := take n (path_parts e1.1) in
      forallb (fun e2 =>
        match implies e1 q, implies e2 q with
        | Some k1, Some k2 => NodeType_eqb k1 k2
        | _, _ => true
        end) files)
      (seq 0 (S (length (path_parts e1.1))))) files.

(** No two different names implied at one level, that is after the
    same segments [q], compare equal. *)
Definition no_sibling_ties (cmp : string -> string -> Z)
    (files : list (string * ZipObject)) : Prop :=
  forall e1 e2 q a b, e1 ∈ files -> e2 ∈ files ->
    (q ++ [a]) `prefix_of` path_parts e1.1 ->
    (q ++ [b]) `prefix_of` path_parts e2.1 ->
    cmp a b = 0%Z -> a = b.

(** The same, as a test. *)
Definition no_sibling_tiesb (cmp : string -> string -> Z)
    (files : list (string * ZipObject)) : bool :=
  forallb (fun e1 =>
    forallb (fun e2 =>
      forallb (fun n =>
        match path_parts e1.1 !! n, path_parts e2.1 !! n with
        | Some a, Some b =>
            negb (bool_decide (take n (path_parts e1.1)
                               = take n (path_parts e2.1)))
            || negb (cmp a b =? 0)%Z || bool_decide (a = b)
        | _, _ => true
        end) (seq 0 (length (path_parts e1.1)))) files) files.

(** The same, of a tree: no two different names of nodes at one
    level compare equal. *)
Definition no_ties_in (cmp : string -> string -> Z) (t : Node) : Prop :=
  forall q a b ka kb,
    kind_at (q ++ [a]) t = Some ka -> kind_at (q ++ [b]) t = Some kb ->
    cmp a b = 0%Z -> a = b.

(** A tree without the handles of its File nodes: names, kinds, paths
    and the order of the children. *)
Inductive Shape :=
| ShapeDir (name path : string) (children : list Shape)
| ShapeFile (name path : string).

Fixpoint shape (t : Node) : Shape :=
  match t with
  | DirNode name path cs => ShapeDir name path (map shape cs)
  | FileNode name path _ => ShapeFile name path
  end.

Definition shape_name (x : Shape) : string :=
  match x with ShapeDir name _ _ | ShapeFile name _ => name end.

Definition shape_type (x : Shape) : NodeType :=
  match x with ShapeDir _ _ _ => directory | ShapeFile _ _ => file end.

(** [compareNodes], of shapes. *)
Definition compareShapes (cmp : string -> string -> Z) (a b : Shape) : Z :=
  if NodeType_eqb (shape_type a) (shape_type b)
  then cmp (shape_name a) (shape_name b)
  else match shape_type a with directory => (-1)%Z | file => 1%Z end.

(** The shape of a tree after the sort pass. *)
Definition sorted_shape (cmp : string -> string -> Z) (t : Node) : Shape :=
  shape (sortStructure cmp t).

(** The node the walk creates for [part] under a directory of path
    [cpath], [rest] being the segments that follow. *)
Definition new_child (entry : ZipObject) (cpath part : string)
    (rest : list string) : Node :=
  if dir entry || negb (bool_decide (rest = []))
  then DirNode part (cpath +:+ "/" +:+ part) []
  else FileNode part (cpath +:+ "/" +:+ part) (zipEntry entry).

(** The tree part of [forEach_part]: [root.fileMap] left out, and
    "[i < parts.length - 1]" read as "segments remain". *)
Fixpoint merge_parts (entry : ZipObject) (parts : list string)
    (current : Node) {struct parts} : Js.Result Node :=
  match parts with
  | [] => mret current
  | part :: rest =>
      let isDirectory := dir entry || negb (bool_decide (rest = [])) in
      match current with
      | FileNode _ _ _ => Js.Throw (Js.TypeError_undefined "find")
      | DirNode cname cpath children =>
          match list_find (fun child => node_name child = part) children with
          | Some (k, existing) =>
              if isDirectory then
                existing' ← merge_parts entry rest existing;
                mret (DirNode cname cpath (<[k := existing']> children))
              else merge_parts entry rest current
          | None =>
              if isDirectory then
                newDir' ← merge_parts entry rest
                            (DirNode part (cpath +:+ "/" +:+ part) []);
                mret (DirNode cname cpath (children ++ [newDir']))
              else
                merge_parts entry rest
                  (DirNode cname cpath
                     (children ++ [FileNode part (cpath +:+ "/" +:+ part)
                                     (zipEntry entry)]))
          end
      end
  end.

Definition tree_of (r : Js.Result (Node * gmap string ZipObject))
  : Js.Result Node :=
  match r with
  | Js.Ok (t, _) => Js.Ok t
  | Js.Throw e => Js.Throw e
  end.

(** A property of every Directory node of a tree, given its name, path
    and children. *)
Fixpoint forall_dirs (P : string -> string -> list Node -> Prop) (t : Node)
  : Prop :=
  match t with
  | FileNode _ _ _ => True
  | DirNode name path cs =>
      P name path cs /\ foldr (fun c rest => forall_dirs P c /\ rest) True cs
  end.

(** A children array is tidy when no two children share a name and
    each child's path is the directory's path, a slash and the child's
    name. *)
Definition tidy (_ path : string) (cs : list Node) : Prop :=
  NoDup (map node_name cs) /\
  Forall (fun c => node_path c = path +:+ "/" +:+ node_name c) cs.

(** The tree part of the loop over the entries. *)
Fixpoint merge_entries (files : list (string * ZipObject)) (t : Node)
  : Js.Result Node :=
  match files with
  | [] => mret t
  | key :: files' =>
      t' ← merge_parts key.2 (path_parts key.1) t; merge_entries files' t'
  end.

(** The kind the first entry that leads to [q] implies for it. *)
Fixpoint first_implied (q : list string) (files : list (string * ZipObject))
  : option NodeType :=
  match files with
  | [] => None
  | key :: files' =>
      match implies key q with
      | Some k => Some k
      | None => first_implied q files'
      end
  end.

(** A directory whose listings that fail are replaced by empty ones,
    at every depth. *)
Fixpoint heal (entry : FileSystemDirectoryEntry) : FileSystemDirectoryEntry :=
  match entry with
  | mkDirectoryEntry name reader =>
      mkDirectoryEntry name
        (map (fun result =>
                match result with
                | None => Some []
                | Some batch =>
                    Some (map (fun item =>
                                 match item with
                                 | DirectoryEntry d => DirectoryEntry (heal d)
                                 | FileEntry f => FileEntry f
                                 end) batch)
                end) reader)
  end.

(** [item] is listed in the build of [entry] under [currentPath], in a
    directory of path [path]: it is among the entries that the one
    call to [readEntries] delivers for [entry], or it is listed in the
    build of a subdirectory so delivered. *)
Inductive listed
  : FileSystemDirectoryEntry -> string -> FileSystemEntry -> string -> Prop :=
| listed_here name reader currentPath item :
    item ∈ readEntries reader ->
    listed (mkDirectoryEntry name reader) currentPath item
           (directory_path currentPath name)
| listed_below name reader currentPath d item path :
    DirectoryEntry d ∈ readEntries reader ->
    listed d (directory_path currentPath name) item path ->
    listed (mkDirectoryEntry name reader) currentPath item path.

(** ** Inputs of the examples *)

(** [proj/{README.md, src/{index.js, utils/helpers.js}}], each
    directory listed in one batch. *)
Definition proj : FileSystemDirectoryEntry :=
  mkDirectoryEntry "proj"
    [Some [FileEntry "README.md";
           DirectoryEntry
             (mkDirectoryEntry "src"
                [Some [FileEntry "index.js";
                       DirectoryEntry
                         (mkDirectoryEntry "utils"
                            [Some [FileEntry "helpers.js"]])]])]].

(** [proj/{README.md, src/}] where the listing of [src] fails. *)
Definition proj_denied : FileSystemDirectoryEntry :=
  mkDirectoryEntry "proj"
    [Some [FileEntry "README.md";
           DirectoryEntry
             (mkDirectoryEntry "src" [None; Some [FileEntry "index.js"]])]].

(** The lines the specification gives for [proj]. *)
Definition proj_lines_of_spec : list string :=
  ["proj/";
   "    ├── README.md";
   "    └── src/";
   "        ├── index.js";
   "        └── utils/";
   "            └── helpers.js"].

(** The lines [renderStructure] gives for it. *)
Definition proj_lines : list string :=
  ["proj/";
   "    ├── src/";
   "    │   ├── utils/";
   "    │   │   └── helpers.js";
   "    │   └── index.js";
   "    └── README.md"].

(** A dropped file of [bytes] bytes that decodes to [files]. *)
Definition archive (bytes : Z) (name : string)
    (files : list (string * ZipObject)) : DroppedFile :=
  mkDroppedFile bytes name (inr files).

(** An entry as JSZip keeps it, under its name. *)
Definition zip_entry (name : string) (is_dir : bool) : string * ZipObject :=
  (name, mkZipObject name is_dir).

(** [["a/", "a/b.txt", "a/c/", "a/c/d.txt"]] *)
Definition merge_entries_of_spec : list (string * ZipObject) :=
  [zip_entry "a/" true; zip_entry "a/b.txt" false;
   zip_entry "a/c/" true; zip_entry "a/c/d.txt" false].

Definition merge_children_of_spec : list Node :=
  [DirNode "a" "/a"
     [DirNode "c" "/a/c"
        [FileNode "d.txt" "/a/c/d.txt"
           (zipEntry (mkZipObject "a/c/d.txt" false))];
      FileNode "b.txt" "/a/b.txt" (zipEntry (mkZipObject "a/b.txt" false))]].

(** The tree a call returned, if it returned one. *)
Definition returned_tree (out : list Event * Js.Result ZipRoot)
  : option Node :=
  match out.2 with
  | Js.Ok r => Some (root r)
  | Js.Throw _ => None
  end.

(** All the entries a reader delivers, batch after batch. *)
Definition delivered (reader : list (option (list FileSystemEntry)))
  : list FileSystemEntry :=
  flat_map (fun result => match result with
                          | Some batch => batch
                          | None => []
                          end) reader.

(** U+00E9, and [e] followed by U+0301: one name, composed and
    decomposed. *)
Definition e_acute_composed : string :=
  String "195" (String "169" EmptyString).

Definition e_acute_decomposed : string :=
  String "e" (String "204" (String "129" EmptyString)).

(** Two files whose names are canonically equivalent. *)
Definition equivalent_names : list (string * ZipObject) :=
  [zip_entry e_acute_composed false; zip_entry e_acute_decomposed false].

(** ** The other functions of the components *)

(** [countItems(node)]: [1] for a node without [children], else one
    more than the [reduce] over the children. *)
Fixpoint countItems (node : Node) : nat :=
  match node with
  | FileNode _ _ _ => 1
  | DirNode _ _ children =>
      1 + fold_left (fun sum child => sum + countItems child) children 0
  end.

(** [renderStructureWithIcons(node, prefix = '', isLast = true, isRoot
    = true)] of the [FolderStructure] component, which reads the
    [expandedFolders] set. *)
Fixpoint renderStructureWithIcons (expandedFolders : gset string)
    (node : Node) (prefix : string) (isLast isRoot : bool) {struct node}
  : Js.Result (list string) :=
  let isExpanded := bool_decide (node_path node ∈ expandedFolders) in
  if isRoot then
    let rootLine := "📁 " +:+ node_name node +:+ "/" in
    childLines ←
      (if isExpanded then
         match node with
         | FileNode _ _ _ => Js.Throw (Js.TypeError_undefined "flatMap")
         | DirNode _ _ children =>
             flatMap_result
               (fun child i =>
                  renderStructureWithIcons expandedFolders child "    "
                    (i =? length children - 1)%nat false)
               children
         end
       else mret []);
    mret (rootLine :: childLines)
  else
    let connector := if isLast then "└── " else "├── " in
    let icon := match node_type node with
                | directory => if isExpanded then "📂" else "📁"
                | file => "📄"
                end in
    let line :=
      prefix +:+ connector +:+ icon +:+ " " +:+ node_name node
      +:+ (match node_type node with directory => "/" | file => "" end) in
    match node with
    | FileNode _ _ _ => mret [line]
    | DirNode _ _ [] => mret [line]
    | DirNode _ _ children =>
        if negb isExpanded then mret [line]
        else
          let childPrefix :=
            prefix +:+ (if isLast then "    " else "│   ") in
          childLines ←
            flatMap_result
              (fun child i =>
                 renderStructureWithIcons expandedFolders child childPrefix
                   (i =? length children - 1)%nat false)
              children;
          mret (line :: childLines)
    end.

(** [/\.zip$/i.test(s)] *)
Fixpoint test_zip_suffix (s : string) : bool :=
  Js.is_dot_zip s
  || match s with
     | EmptyString => false
     | String _ rest => test_zip_suffix rest
     end.

(** The [TypeError] of reading property [prop] of [null]. *)
Definition TypeError_null (prop : string) : Js.Error :=
  Js.mkError ("Cannot read properties of null (reading '" +:+ prop +:+ "')").

(** *** [getSafeFilename] *)

(** The characters of a name as the two regular expressions and
    [trim] see them: a character that [[\w-]] matches, a white-space
    character ([\s], which is also what [trim] strips), or any
    other. *)
Inductive CharClass :=
| Kept (c : ascii)
| Space
| Other.

(** [[\w-]], of an ASCII character: a letter, a digit, [_] or [-]. *)
Definition is_word_or_hyphen (c : ascii) : bool :=
  let n := nat_of_ascii c in
  (((48 <=? n) && (n <=? 57)) || ((65 <=? n) && (n <=? 90))
   || ((97 <=? n) && (n <=? 122)) || (n =? 95) || (n =? 45))%nat.

(** The number of bytes of the white-space character the string
    starts with, [0] if it starts with none: U+0009 to U+000D, U+0020,
    U+00A0, U+1680, U+2000 to U+200A, U+2028, U+2029, U+202F, U+205F,
    U+3000 and U+FEFF, in UTF-8. *)
Definition space_width (s : string) : nat :=
  match s with
  | String a rest =>
      let n := nat_of_ascii a in
      if ((9 <=? n) && (n <=? 13)) || (n =? 32) then 1
      else
        match rest with
        | String b rest' =>
            let m := nat_of_ascii b in
            if (n =? 194) && (m =? 160) then 2
            else
              match rest' with
              | String c _ =>
                  let k := nat_of_ascii c in
                  if (n =? 225) && (m =? 154) && (k =? 128) then 3
                  else if (n =? 226) && (m =? 128)
                          && (((128 <=? k) && (k <=? 138)) || (k =? 168)
                              || (k =? 169) || (k =? 175)) then 3
                  else if (n =? 226) && (m =? 129) && (k =? 159) then 3
                  else if (n =? 227) && (m =? 128) && (k =? 128) then 3
                  else if (n =? 239) && (m =? 187) && (k =? 191) then 3
                  else 0
              | EmptyString => 0
              end
        | EmptyString => 0
        end
  | EmptyString => 0
  end%nat.

(** The characters of a string, [skip] bytes into a white-space
    character already told.  Every byte of a character that is
    neither white space nor ASCII counts as [Other]: the expression
    removes them all alike. *)
Fixpoint classify (skip : nat) (s : string) : list CharClass :=
  match s with
  | EmptyString => []
  | String c rest =>
      match skip with
      | S skip' => classify skip' rest
      | O =>
          match space_width s with
          | S width => Space :: classify width rest
          | O => (if is_word_or_hyphen c then Kept c else Other)
                   :: classify 0 rest
          end
      end
  end.

Definition is_space (x : CharClass) : bool :=
  match x with Space => true | _ => false end.

Definition is_other (x : CharClass) : bool :=
  match x with Other => true | _ => false end.

Fixpoint drop_spaces (l : list CharClass) : list CharClass :=
  match l with
  | Space :: l' => drop_spaces l'
  | _ => l
  end.

(** [.replace(/[^\w\s-]/g, '')] *)
Definition remove_unsafe (l : list CharClass) : list CharClass :=
  List.filter (fun x => negb (is_other x)) l.

(** [.trim()] *)
Definition trim (l : list CharClass) : list CharClass :=
  rev (drop_spaces (rev (drop_spaces l))).

(** [.replace(/\s+/g, '-')], as a string: a run of white space gives
    one hyphen ([after_space] tells that the run has begun). *)
Fixpoint dash_spaces (after_space : bool) (l : list CharClass) : string :=
  match l with
  | [] => EmptyString
  | Space :: l' =>
      if after_space then dash_spaces true l'
      else String "-" (dash_spaces true l')
  | Kept c :: l' => String c (dash_spaces false l')
  | Other :: l' => dash_spaces false l'
  end.

(** [getSafeFilename(name)], of a string. *)
Definition getSafeFilename (name : string) : string :=
  if (String.length name =? 0)%nat then "folder-structure.txt"
  else
    let cleanName := dash_spaces false (trim (remove_unsafe (classify 0 name))) in
    if (0 <? String.length cleanName)%nat
    then cleanName +:+ "-structure.txt"
    else "folder-structure.txt".

(** *** State and handlers *)

(** The tree handed to [onStructureUpdate]: the root object of an
    archive, with its [fileMap], or the root node of a directory. *)
Inductive Structure :=
| ArchiveTree (r : ZipRoot)
| DirectoryTree (t : Node).

Definition structure_node (s : Structure) : Node :=
  match s with
  | ArchiveTree r => root r
  | DirectoryTree t => t
  end.

Module App.

(** The state of [App]. *)
Record State := mkState {
  structure : option Structure;
  error : option string;
  expandedFolders : gset string;
  isLoading : bool
}.

Definition setIsLoading (b : bool) (st : State) : State :=
  mkState (structure st) (error st) (expandedFolders st) b.

Definition setExpandedFolders (s : gset string) (st : State) : State :=
  mkState (structure st) (error st) s (isLoading st).

(** [handleStructureUpdate(newStructure, errorMsg = null)] *)
Definition handleStructureUpdate (newStructure : option Structure)
    (errorMsg : option string) (st : State) : State :=
  let st := mkState newStructure errorMsg (expandedFolders st) false in
  match newStructure with
  | Some s =>
      let allPaths := getAllFolderPaths (structure_node s) in
      setExpandedFolders (list_to_set allPaths) st
  | None => st
  end.

End App.

(** The first item of a drop: [webkitGetAsEntry] ([None] where the
    browser has no such method, [Some None] when it returns [null]),
    [kind], and what [getAsFile()] returns ([None] for [null]). *)
Record DataTransferItem := mkItem {
  webkitGetAsEntry : option (option FileSystemEntry);
  kind : string;
  getAsFile : option DroppedFile
}.

Section Drop.

Variable localeCompare : string -> string -> Z.

(** The tree of the [try] block of [handleDrop], or what it throws.
    [items] is [e.dataTransfer.items]. *)
Definition dropped_structure (items : list DataTransferItem)
  : Js.Result Structure :=
  match items with
  | [] => Js.Throw (Js.mkError "No files were dropped")
  | item :: _ =>
      match webkitGetAsEntry item with
      | Some None => Js.Throw (TypeError_null "isDirectory")
      | Some (Some (DirectoryEntry d)) =>
          mret (DirectoryTree (readDirectoryStructure localeCompare d ""))
      | _ =>
          if String.eqb (kind item) "file" then
            match getAsFile item with
            | None => Js.Throw (TypeError_null "name")
            | Some dropped =>
                if test_zip_suffix (file_name dropped) then
                  r ← (extractZipStructure localeCompare dropped).2;
                  mret (ArchiveTree r)
                else
                  Js.Throw
                    (Js.mkError "Only folders and ZIP files are supported")
            end
          else Js.Throw (Js.mkError "Unsupported item type")
      end
  end.

End Drop.

Module TextFolderStructure.

(** [handleDrop(e)] of the text view: the state of [App] and the
    [currentError] of the component, before and after. *)
Definition handleDrop (localeCompare : string -> string -> Z)
    (items : list DataTransferItem) (st : App.State * option string)
  : App.State * option string :=
  let app := App.setIsLoading true st.1 in
  let currentError : option string := None in
  let app := App.handleStructureUpdate None None app in
  match dropped_structure localeCompare items with
  | Js.Ok structure =>
      let app := App.handleStructureUpdate (Some structure) None app in
      (App.setIsLoading false app, currentError)
  | Js.Throw err =>
      let currentError := Some (Js.message err) in
      let app :=
        App.handleStructureUpdate None (Some (Js.message err)) app in
      (App.setIsLoading false app, currentError)
  end.

End TextFolderStructure.

Module FolderStructure.

(** [handleDrop(e)] of the folder view, [onStructureUpdate] being the
    function [App] passes. *)
Definition handleDrop (localeCompare : string -> string -> Z)
    (items : list DataTransferItem) (st : App.State * option string)
  : App.State * option string :=
  let app := App.setIsLoading true st.1 in
  let currentError : option string := None in
  match dropped_structure localeCompare items with
  | Js.Ok structure =>
      let allPaths := getAllFolderPaths (structure_node structure) in
      let app := App.setExpandedFolders (list_to_set allPaths) app in
      let app := App.handleStructureUpdate (Some structure) None app in
      (App.setIsLoading false app, currentError)
  | Js.Throw err =>
      let currentError := Some (Js.message err) in
      let app :=
        App.handleStructureUpdate None (Some (Js.message err)) app in
      (App.setIsLoading false app, currentError)
  end.

(** [toggleFolder(path)], of the set: [newSet.has(path) ?
    newSet.delete(path) : newSet.add(path)]. *)
Definition toggleFolder (path : string) (prev : gset string) : gset string :=
  if bool_decide (path ∈ prev) then prev ∖ {[path]} else {[path]} ∪ prev.

(** [toggleExpandAll()] *)
Definition toggleExpandAll (st : App.State) : App.State :=
  match App.structure st with
  | None => st
  | Some s =>
      if areAllFoldersExpanded (Some (structure_node s))
           (App.expandedFolders st)
      then App.setExpandedFolders ∅ st
      else App.setExpandedFolders
             (list_to_set (getAllFolderPaths (structure_node s))) st
  end.

End FolderStructure.

(** *** Vocabulary of the further properties *)

(** The File nodes of a tree. *)
Fixpoint file_nodes (t : Node) : list Node :=
  match t with
  | FileNode _ _ _ => [t]
  | DirNode _ _ cs => flat_map file_nodes cs
  end.

(** The path of the node reached by the names [q] from a node of
    empty path. *)
Fixpoint path_of (q : list string) : string :=
  match q with
  | [] => EmptyString
  | s :: q' => "/" +:+ s +:+ path_of q'
  end.

(** A name that is a segment: not empty and without a slash. *)
Fixpoint slash_free (s : string) : bool :=
  match s with
  | EmptyString => true
  | String c rest => negb (Ascii.eqb c "/"%char) && slash_free rest
  end.

Definition is_segment (s : string) : bool :=
  (0 <? String.length s)%nat && slash_free s.

(** What stands before the connector of a line: units of four
    columns, blank or with a bar. *)
Inductive indent : string -> Prop :=
| indent_none : indent EmptyString
| indent_blank i : indent i -> indent (i +:+ "    ")
| indent_bar i : indent i -> indent (i +:+ "│   ").

(** The text of a node in a line of the plain rendering. *)
Definition label (n : Node) : string :=
  node_name n
  +:+ (match node_type n with directory => "/" | file => "" end).

(** A line of the plain rendering below the root: [prefix], further
    units, a connector and the label of a node of [t]. *)
Definition line_of (prefix : string) (t : Node) (line : string) : Prop :=
  exists i connector n,
    indent i /\ (connector = "└── " \/ connector = "├── ") /\
    within n t /\ line = prefix +:+ i +:+ connector +:+ label n.

(** Every character of a string passes a test. *)
Fixpoint all_chars (P : ascii -> bool) (s : string) : bool :=
  match s with
  | EmptyString => true
  | String c rest => P c && all_chars P rest
  end.

(** The children of a directory are named by segments. *)
Definition neat (_ _ : string) (cs : list Node) : Prop :=
  Forall (fun c => is_segment (node_name c) = true) cs.

(** Some entry leads through a name that an entry before it made a
    File node: [q], not empty, is a proper prefix of the segments of
    the entry, and the first entry to lead to [q] implies a file
    there. *)
Definition blocked (files : list (string * ZipObject)) : Prop :=
  exists key q,
    key ∈ files /\ q <> [] /\ q `prefix_of` path_parts key.1 /\
    q <> path_parts key.1 /\ first_implied q files = Some file.

(** [fm] maps the path of every File node of [t] to the entry the node
    holds, and nothing else. *)
Definition indexed (t : Node) (fm : gmap string ZipObject) : Prop :=
  (forall name p h, FileNode name p h ∈ file_nodes t ->
     exists z, h = zipEntry z /\ fm !! p = Some z) /\
  (forall p z, fm !! p = Some z ->
     exists name, FileNode name p (zipEntry z) ∈ file_nodes t).

(** An archive of the entries above, and the tree it gives. *)
Definition site : DroppedFile := archive 1 "site.zip" merge_entries_of_spec.

Definition site_root : ZipRoot :=
  mkZipRoot (DirNode "site" "" merge_children_of_spec)
    (<["/a/c/d.txt" := mkZipObject "a/c/d.txt" false]>
       (<["/a/b.txt" := mkZipObject "a/b.txt" false]> ∅)).

Definition d_txt : Node :=
  FileNode "d.txt" "/a/c/d.txt" (zipEntry (mkZipObject "a/c/d.txt" false)).

(** Entries of which the second leads through the File node of the
    first. *)
Definition file_then_folder : list (string * ZipObject) :=
  [zip_entry "a" false; zip_entry "a/b" false].

(** * Properties *)

(** [map] read as stdpp's [fmap], for its lemmas. *)
Ltac to_fmap :=
  repeat match goal with
         | |- context [ @List.map ?A ?B ?f ?l ] =>
             change (@List.map A B f l) with (f <$> l)
         end.

(** ** Trees *)

Lemma Node_ind_forall (P : Node -> Prop) :
  (forall name path cs, Forall P cs -> P (DirNode name path cs)) ->
  (forall name path h, P (FileNode name path h)) ->
  forall t, P t.
Proof.
  intros Hdir Hfile. fix IH 1.
  intros [name path cs | name path h]; [apply Hdir | apply Hfile].
  induction cs as [| c cs IHcs]; constructor; [apply IH | exact IHcs].
Qed.

Lemma height_child c cs :
  c ∈ cs -> (height c <= foldr (fun c h => Nat.max (height c) h) 0 cs)%nat.
Proof.
  induction 1 as [c cs | c c' cs _ IH]; simpl; lia.
Qed.

Lemma forall_dirs_DirNode P name path cs :
  forall_dirs P (DirNode name path cs) <->
  P name path cs /\ Forall (forall_dirs P) cs.
Proof.
  simpl. enough (foldr (fun c rest => forall_dirs P c /\ rest) True cs
                 <-> Forall (forall_dirs P) cs) by tauto.
  induction cs as [| c cs IH]; simpl.
  - split; [constructor | trivial].
  - rewrite Forall_cons. tauto.
Qed.

Lemma within_DirNode d name path cs :
  within d (DirNode name path cs) <->
  d = DirNode name path cs \/ exists c, c ∈ cs /\ within d c.
Proof.
  split.
  - inversion 1; subst; eauto.
  - intros [-> | (c & Hc & Hd)]; [constructor | econstructor; eauto].
Qed.

Lemma within_FileNode d name path h :
  within d (FileNode name path h) <-> d = FileNode name path h.
Proof.
  split; [inversion 1; subst; reflexivity | intros ->; constructor].
Qed.

(** [forall_dirs] speaks of every Directory node, at every depth. *)
Lemma forall_dirs_within P t :
  forall_dirs P t <->
  forall name path cs, within (DirNode name path cs) t -> P name path cs.
Proof.
  induction t as [name path cs IH | name path h] using Node_ind_forall.
  - rewrite forall_dirs_DirNode. split.
    + intros [Hhere Hcs] n p cs' Hin.
      apply within_DirNode in Hin as [Heq | (c & Hc & Hin)].
      * by inversion Heq; subst.
      * rewrite Forall_forall in IH, Hcs. eapply IH; eauto.
    + intros Hall. split; [apply Hall; constructor |].
      rewrite Forall_forall in IH |- *. intros c Hc.
      apply IH; [done |]. intros n p cs' Hin.
      apply Hall. econstructor; eauto.
  - split; [| done]. intros _ n p cs Hin.
    apply within_FileNode in Hin. discriminate.
Qed.

(** ** The sort *)

Section SortFacts.

Context {A : Type} (cmp : A -> A -> Z).

Lemma sort_insert_perm x l : Js.sort_insert cmp x l ≡ₚ x :: l.
Proof.
  induction l as [| y l IH]; simpl; [done |].
  destruct (cmp x y <=? 0)%Z; [done |].
  rewrite IH. apply perm_swap.
Qed.

Lemma sort_perm l : Js.sort cmp l ≡ₚ l.
Proof.
  induction l as [| x l IH]; simpl; [done |].
  by rewrite sort_insert_perm, IH.
Qed.

Lemma elem_of_sort x l : x ∈ Js.sort cmp l <-> x ∈ l.
Proof. by rewrite sort_perm. Qed.

Lemma length_sort l : length (Js.sort cmp l) = length l.
Proof. by rewrite sort_perm. Qed.

Hypothesis cmp_total : forall a b, le_by cmp a b \/ le_by cmp b a.
Hypothesis cmp_trans :
  forall a b c, le_by cmp a b -> le_by cmp b c -> le_by cmp a c.

Lemma sort_insert_sorted x l :
  StronglySorted (le_by cmp) l ->
  StronglySorted (le_by cmp) (Js.sort_insert cmp x l).
Proof.
  induction 1 as [| y l Hl IH Hy]; simpl.
  - repeat constructor.
  - destruct (cmp x y <=? 0)%Z eqn:Hxy.
    + apply Z.leb_le in Hxy. constructor; [by constructor |].
      constructor; [done |].
      eapply Forall_impl; [exact Hy |]. intros z Hz. by eapply cmp_trans.
    + apply Z.leb_gt in Hxy. constructor; [done |].
      rewrite sort_insert_perm. constructor; [| done].
      destruct (cmp_total x y) as [H | H]; [unfold le_by in H; lia | done].
Qed.

Lemma sort_sorted l : StronglySorted (le_by cmp) (Js.sort cmp l).
Proof.
  induction l as [| x l IH]; simpl; [constructor |].
  by apply sort_insert_sorted.
Qed.

End SortFacts.

(** ** The comparator of nodes *)

Section CompareNodes.

Variable localeCompare : string -> string -> Z.
Hypothesis localeCompare_consistent : consistent localeCompare.

Lemma localeCompare_total a b :
  (localeCompare a b <= 0)%Z \/ (localeCompare b a <= 0)%Z.
Proof.
  destruct localeCompare_consistent as [Hsgn _].
  specialize (Hsgn a b). lia.
Qed.

Lemma compareNodes_total a b :
  le_by (compareNodes localeCompare) a b \/
  le_by (compareNodes localeCompare) b a.
Proof.
  unfold le_by, compareNodes.
  destruct (node_type a), (node_type b); simpl;
    try apply localeCompare_total; lia.
Qed.

Lemma compareNodes_trans a b c :
  le_by (compareNodes localeCompare) a b ->
  le_by (compareNodes localeCompare) b c ->
  le_by (compareNodes localeCompare) a c.
Proof.
  destruct localeCompare_consistent as [_ Htrans].
  unfold le_by, compareNodes.
  destruct (node_type a), (node_type b), (node_type c); simpl;
    try lia; apply Htrans.
Qed.

Lemma sort_compareNodes_sorted cs :
  StronglySorted (le_by (compareNodes localeCompare))
                 (Js.sort (compareNodes localeCompare) cs).
Proof.
  apply sort_sorted; [apply compareNodes_total | apply compareNodes_trans].
Qed.

End CompareNodes.

Lemma StronglySorted_lookup {A : Type} (R : A -> A -> Prop) l i j a b :
  StronglySorted R l -> (i < j)%nat ->
  l !! i = Some a -> l !! j = Some b -> R a b.
Proof.
  intros Hl. revert i j. induction Hl as [| x l Hl IH Hx]; intros i j Hij Hi Hj.
  - by rewrite lookup_nil in Hi.
  - destruct j as [| j]; [lia |]. destruct i as [| i]; simpl in *.
    + inversion Hi; subst. rewrite Forall_forall in Hx.
      apply Hx. by eapply list_elem_of_lookup_2.
    + eapply IH; [| done..]. lia.
Qed.

(** A children array sorted by [compareNodes] is in canonical order. *)
Lemma sorted_ordered cmp cs :
  StronglySorted (le_by (compareNodes cmp)) cs -> ordered cmp cs.
Proof.
  intros Hcs i j a b Hij Hi Hj.
  pose proof (StronglySorted_lookup _ _ _ _ _ _ Hcs Hij Hi Hj) as Hab.
  unfold le_by, compareNodes in Hab.
  destruct (node_type a), (node_type b); simpl in Hab; split; intros;
    try done; lia.
Qed.

(** The canonical order only reads names and kinds. *)
Lemma ordered_map cmp (f : Node -> Node) cs :
  (forall c, node_name (f c) = node_name c) ->
  (forall c, node_type (f c) = node_type c) ->
  ordered cmp cs -> ordered cmp (map f cs).
Proof.
  intros Hname Htype Hcs i j a b Hij Hi Hj.
  rewrite list_lookup_fmap in Hi, Hj.
  destruct (cs !! i) as [a' |] eqn:Hi'; [| done].
  destruct (cs !! j) as [b' |] eqn:Hj'; [| done].
  simpl in Hi, Hj. inversion Hi; inversion Hj; subst.
  rewrite !Hname, !Htype. eapply Hcs; eauto.
Qed.

(** ** [sortStructure] *)

Section SortStructure.

Variable localeCompare : string -> string -> Z.

Lemma sortStructure_upto_enough fuel1 fuel2 node :
  (height node <= fuel1)%nat -> (height node <= fuel2)%nat ->
  sortStructure_upto localeCompare fuel1 node
  = sortStructure_upto localeCompare fuel2 node.
Proof.
  revert fuel2 node.
  induction fuel1 as [| fuel1 IH]; intros fuel2 [name path cs | name path h];
    simpl; intros H1 H2; try lia; try (by destruct fuel2).
  destruct fuel2 as [| fuel2]; [lia |]. simpl. f_equal.
  apply map_ext_in. intros c Hc.
  apply list_elem_of_In, elem_of_sort, height_child in Hc.
  apply IH; lia.
Qed.

(** The equation of the source: sort the children, then sort each
    child of the sorted array. *)
Lemma sortStructure_DirNode name path cs :
  sortStructure localeCompare (DirNode name path cs)
  = DirNode name path
      (map (sortStructure localeCompare)
           (Js.sort (compareNodes localeCompare) cs)).
Proof.
  unfold sortStructure at 1. simpl. f_equal.
  apply map_ext_in. intros c Hc.
  apply list_elem_of_In, elem_of_sort, height_child in Hc.
  apply sortStructure_upto_enough; lia.
Qed.

Lemma sortStructure_FileNode name path h :
  sortStructure localeCompare (FileNode name path h) = FileNode name path h.
Proof. reflexivity. Qed.

Lemma sortStructure_name t :
  node_name (sortStructure localeCompare t) = node_name t.
Proof. destruct t; [by rewrite sortStructure_DirNode | done]. Qed.

Lemma sortStructure_path t :
  node_path (sortStructure localeCompare t) = node_path t.
Proof. destruct t; [by rewrite sortStructure_DirNode | done]. Qed.

Lemma sortStructure_type t :
  node_type (sortStructure localeCompare t) = node_type t.
Proof. destruct t; [by rewrite sortStructure_DirNode | done]. Qed.

(** A property of children arrays that survives a permutation and
    the sorting of the children holds throughout the sorted tree if
    it held throughout the tree. *)
Lemma sortStructure_forall_dirs (P : string -> string -> list Node -> Prop) t :
  (forall name path cs,
      P name path cs ->
      P name path (map (sortStructure localeCompare)
                       (Js.sort (compareNodes localeCompare) cs))) ->
  forall_dirs P t -> forall_dirs P (sortStructure localeCompare t).
Proof.
  intros HP.
  induction t as [name path cs IH | name path h] using Node_ind_forall;
    [| done].
  rewrite sortStructure_DirNode, !forall_dirs_DirNode.
  intros [Hhere Hcs]. split; [by apply HP |].
  rewrite Forall_forall in IH, Hcs |- *. intros c Hc.
  apply list_elem_of_fmap in Hc as (c' & -> & Hc').
  apply elem_of_sort in Hc'. auto.
Qed.

Hypothesis localeCompare_consistent : consistent localeCompare.

(** After the sort pass every children array is in canonical
    order. *)
Lemma sortStructure_ordered t :
  forall_dirs (fun _ _ cs => ordered localeCompare cs)
              (sortStructure localeCompare t).
Proof.
  induction t as [name path cs IH | name path h] using Node_ind_forall;
    [| done].
  rewrite sortStructure_DirNode, forall_dirs_DirNode. split.
  - apply ordered_map;
      [apply sortStructure_name | apply sortStructure_type |].
    by apply sorted_ordered, sort_compareNodes_sorted.
  - rewrite Forall_forall in IH |- *. intros c Hc.
    apply list_elem_of_fmap in Hc as (c' & -> & Hc').
    apply elem_of_sort in Hc'. auto.
Qed.

End SortStructure.

(** ** The directory builder *)

Lemma DirectoryEntry_ind_forall (P : FileSystemDirectoryEntry -> Prop) :
  (forall name reader,
      Forall (fun result =>
                match result with
                | Some batch =>
                    Forall (fun item =>
                              match item with
                              | DirectoryEntry d => P d
                              | FileEntry _ => True
                              end) batch
                | None => True
                end) reader ->
      P (mkDirectoryEntry name reader)) ->
  forall entry, P entry.
Proof.
  intros Hstep. fix IH 1. intros [name reader]. apply Hstep.
  induction reader as [| result reader IHreader]; constructor;
    [| exact IHreader].
  destruct result as [batch |]; [| exact I].
  induction batch as [| item batch IHbatch]; constructor; [| exact IHbatch].
  destruct item as [f | d]; [exact I | apply IH].
Qed.

Section DirectoryBuilderFacts.

Variable localeCompare : string -> string -> Z.

(** The plain form of the function: the loop runs over the entries
    the one [readEntries] call delivers. *)
Lemma readDirectoryStructure_eq name reader currentPath :
  readDirectoryStructure localeCompare (mkDirectoryEntry name reader)
                         currentPath
  = let path := directory_path currentPath name in
    DirNode name path
      (Js.sort (compareNodes localeCompare)
               (map (item_node localeCompare path) (readEntries reader))).
Proof. by destruct reader as [| [batch |] reader]. Qed.

Lemma item_node_name path item :
  node_name (item_node localeCompare path item) = entry_name item.
Proof. by destruct item as [f | [name reader]]. Qed.

Lemma item_node_type path item :
  node_type (item_node localeCompare path item)
  = if isDirectory item then directory else file.
Proof. by destruct item as [f | [name reader]]. Qed.

Lemma item_node_path path item :
  node_path (item_node localeCompare path item)
  = if isDirectory item then directory_path path (entry_name item)
    else path +:+ "/" +:+ entry_name item.
Proof.
  destruct item as [f | [name reader]]; [done |].
  unfold item_node. by rewrite readDirectoryStructure_eq.
Qed.

(** What holds of every children array the builder sorts holds
    throughout the trees it returns. *)
Lemma readDirectoryStructure_forall_dirs
    (Q : string -> string -> list Node -> Prop) :
  (forall name currentPath entries,
      let path := directory_path currentPath name in
      Q name path
        (Js.sort (compareNodes localeCompare)
                 (map (item_node localeCompare path) entries))) ->
  forall entry currentPath,
    forall_dirs Q (readDirectoryStructure localeCompare entry currentPath).
Proof.
  intros HQ entry.
  induction entry as [name reader IH] using DirectoryEntry_ind_forall.
  intros currentPath.
  rewrite readDirectoryStructure_eq. cbv zeta.
  rewrite forall_dirs_DirNode. split; [apply HQ |].
  rewrite Forall_forall. intros c Hc.
  apply elem_of_sort, list_elem_of_fmap in Hc as (item & -> & Hitem).
  destruct reader as [| [batch |] reader]; simpl in Hitem;
    try by apply not_elem_of_nil in Hitem.
  apply Forall_cons_1 in IH as [IH _].
  rewrite Forall_forall in IH. specialize (IH item Hitem).
  destruct item as [f | d]; [done | apply IH].
Qed.

End DirectoryBuilderFacts.

(** ** The archive builder: the walk and its tree part *)

Section Find.

Context {A : Type} (P : A -> Prop) `{!forall x, Decision (P x)}.

Lemma list_find_insert_same l k x y :
  list_find P l = Some (k, x) -> P y ->
  list_find P (<[k := y]> l) = Some (k, y).
Proof.
  intros Hfind Hy. apply list_find_insert_Some. right; left.
  apply list_find_Some in Hfind as (Hk & _ & Hleast).
  split_and!; eauto using lookup_lt_Some.
Qed.

Lemma list_find_insert_other l k x y :
  l !! k = Some x -> ~ P x -> ~ P y ->
  list_find P (<[k := y]> l) = list_find P l.
Proof.
  revert k. induction l as [| z l IH]; intros k Hk Hx Hy; [done |].
  destruct k as [| k]; simpl in *.
  - inversion Hk; subst. by rewrite !decide_False by done.
  - case_decide; [done |]. by erewrite IH.
Qed.

Lemma list_find_snoc l y :
  list_find P l = None ->
  list_find P (l ++ [y])
  = if decide (P y) then Some (length l, y) else None.
Proof.
  intros Hnone. rewrite list_find_app_r by done. simpl.
  by case_decide.
Qed.

End Find.

Lemma is_directory_flag (i : nat) (rest : list string) :
  (i <? i + S (length rest) - 1)%nat = negb (bool_decide (rest = [])).
Proof.
  destruct rest as [| part rest]; simpl.
  - apply Nat.ltb_ge. lia.
  - apply Nat.ltb_lt. lia.
Qed.

(** The walk builds the tree that [merge_parts] builds. *)
Lemma forEach_part_tree entry parts :
  forall len i current fm,
    len = (i + length parts)%nat ->
    tree_of (forEach_part entry len i parts current fm)
    = merge_parts entry parts current.
Proof.
  induction parts as [| part rest IH]; intros len i current fm ->; [done |].
  simpl forEach_part. simpl merge_parts.
  rewrite is_directory_flag.
  destruct current as [cname cpath children | ? ? ?]; [| done].
  destruct (list_find _ children) as [[k existing] |];
    destruct (dir entry || negb (bool_decide (rest = [])));
    try (apply IH; simpl; lia).
  - rewrite <- (IH (i + S (length rest))%nat (S i) existing fm) by (simpl; lia).
    by destruct (forEach_part _ _ _ rest existing fm) as [[? ?] | ?].
  - rewrite <- (IH (i + S (length rest))%nat (S i)
                   (DirNode part (cpath +:+ "/" +:+ part) []) fm)
      by (simpl; lia).
    by destruct (forEach_part _ _ _ rest _ fm) as [[? ?] | ?].
Qed.

Lemma add_entry_tree st key :
  tree_of (add_entry st key) = merge_parts key.2 (path_parts key.1) st.1.
Proof. destruct key as [relativePath entry]. by apply forEach_part_tree. Qed.

Lemma forEach_entry_tree files :
  forall st, tree_of (forEach_entry files st) = merge_entries files st.1.
Proof.
  induction files as [| key files IH]; intros st; [by destruct st |].
  cbn [forEach_entry merge_entries]. rewrite <- add_entry_tree.
  destruct (add_entry st key) as [[t' fm'] | e]; [apply IH | done].
Qed.

(** The root an archive yields is the sorted result of the merge. *)
Lemma build_zip_tree_root cmp name files r :
  build_zip_tree cmp name files = Js.Ok r <->
  exists t fm,
    forEach_entry files (DirNode (Js.replace_zip_suffix name) "" [], ∅)
    = Js.Ok (t, fm) /\
    r = mkZipRoot (sortStructure cmp t) fm.
Proof.
  unfold build_zip_tree.
  destruct (forEach_entry files _) as [[t fm] | e]; simpl.
  - split; [intros [= <-]; eauto | intros (? & ? & [= <- <-] & ->); done].
  - split; [done | intros (? & ? & ? & _); done].
Qed.

Lemma build_zip_tree_Ok cmp name files r :
  build_zip_tree cmp name files = Js.Ok r ->
  exists t,
    merge_entries files (DirNode (Js.replace_zip_suffix name) "" []) = Js.Ok t
    /\ root r = sortStructure cmp t.
Proof.
  intros (t & fm & Hwalk & ->)%build_zip_tree_root. exists t.
  split; [| done].
  pose proof (forEach_entry_tree files
                (DirNode (Js.replace_zip_suffix name) "" [], ∅)) as Htree.
  by rewrite Hwalk in Htree.
Qed.

Lemma build_zip_tree_merged cmp name files t :
  merge_entries files (DirNode (Js.replace_zip_suffix name) "" []) = Js.Ok t ->
  exists r,
    build_zip_tree cmp name files = Js.Ok r /\ root r = sortStructure cmp t.
Proof.
  intros Hmerge.
  pose proof (forEach_entry_tree files
                (DirNode (Js.replace_zip_suffix name) "" [], ∅)) as Htree.
  simpl in Htree. rewrite Hmerge in Htree. unfold build_zip_tree.
  destruct (forEach_entry files _) as [[t' fm] | e]; [| done].
  inversion Htree; subst. by eexists.
Qed.

(** A successful call decoded the archive and built the tree. *)
Lemma extractZipStructure_Ok cmp file events r :
  extractZipStructure cmp file = (events, Js.Ok r) ->
  exists files,
    decoded file = inr files /\
    build_zip_tree cmp (file_name file) files = Js.Ok r.
Proof.
  unfold extractZipStructure.
  destruct (file_size file >? _)%Z; [done |].
  destruct (decoded file) as [msg | files]; [done |].
  destruct (build_zip_tree cmp (file_name file) files) eqn:Hbuild; [| done].
  intros [= _ <-]. eauto.
Qed.

(** ** The merge of one entry *)

(** Either the child of that name is there and the walk goes on in
    it, or a child is appended and the walk goes on in that one.  (A
    File node is only met or made at the last segment, where nothing
    is left to do in it.) *)
Lemma merge_parts_cons entry part rest cname cpath cs :
  merge_parts entry (part :: rest) (DirNode cname cpath cs)
  = match list_find (fun child => node_name child = part) cs with
    | Some (k, existing) =>
        existing' ← merge_parts entry rest existing;
        mret (DirNode cname cpath (<[k := existing']> cs))
    | None =>
        child' ← merge_parts entry rest (new_child entry cpath part rest);
        mret (DirNode cname cpath (cs ++ [child']))
    end.
Proof.
  simpl. unfold new_child.
  destruct (list_find _ cs) as [[k existing] |] eqn:Hfind;
    destruct (dir entry || negb (bool_decide (rest = []))) eqn:Hflag;
    try done.
  - destruct rest; [| by rewrite orb_true_r in Hflag].
    simpl. apply list_find_Some in Hfind as (Hk & _).
    by rewrite list_insert_id.
  - by destruct rest; [| by rewrite orb_true_r in Hflag].
Qed.

Lemma merge_parts_nil entry t : merge_parts entry [] t = Js.Ok t.
Proof. done. Qed.

Lemma bind_Ok {A B : Type} (r : Js.Result A) (k : A -> Js.Result B) b :
  (x ← r; k x) = Js.Ok b <-> exists a, r = Js.Ok a /\ k a = Js.Ok b.
Proof.
  destruct r as [a | e]; simpl; [| split; [done | by intros (? & ? & _)]].
  split; [eauto | by intros (? & [= <-] & ?)].
Qed.

(** The cases of a successful merge. *)
Lemma merge_parts_cons_Ok entry part rest t t' :
  merge_parts entry (part :: rest) t = Js.Ok t' ->
  exists cname cpath cs, t = DirNode cname cpath cs /\
    ((exists k existing existing',
         list_find (fun child => node_name child = part) cs
         = Some (k, existing) /\
         merge_parts entry rest existing = Js.Ok existing' /\
         t' = DirNode cname cpath (<[k := existing']> cs)) \/
     (exists child',
         list_find (fun child => node_name child = part) cs = None /\
         merge_parts entry rest (new_child entry cpath part rest)
         = Js.Ok child' /\
         t' = DirNode cname cpath (cs ++ [child']))).
Proof.
  destruct t as [cname cpath cs | ? ? ?]; [| done].
  rewrite merge_parts_cons. intros Hmerge. exists cname, cpath, cs.
  split; [done |].
  destruct (list_find _ cs) as [[k existing] |].
  - left. apply bind_Ok in Hmerge as (existing' & ? & [= <-]). eauto 10.
  - right. apply bind_Ok in Hmerge as (child' & ? & [= <-]). eauto.
Qed.

(** The node the walk stands on keeps its name, path and kind. *)
Lemma merge_parts_same entry parts t t' :
  merge_parts entry parts t = Js.Ok t' ->
  node_name t' = node_name t /\ node_path t' = node_path t /\
  node_type t' = node_type t.
Proof.
  destruct parts as [| part rest]; [by intros [= <-] |].
  intros (cname & cpath & cs & -> & [(k & ex & ex' & _ & _ & ->) |
                                       (child' & _ & _ & ->)])
         %merge_parts_cons_Ok; done.
Qed.

Lemma new_child_same entry cpath part rest :
  node_name (new_child entry cpath part rest) = part /\
  node_path (new_child entry cpath part rest) = cpath +:+ "/" +:+ part.
Proof. unfold new_child. by destruct (_ || _). Qed.

Lemma list_find_name_Some part cs k existing :
  list_find (fun child => node_name child = part) cs = Some (k, existing) ->
  cs !! k = Some existing /\ node_name existing = part.
Proof. intros (? & ? & _)%list_find_Some. done. Qed.

Lemma list_find_name_None part cs :
  list_find (fun child => node_name child = part) cs = None ->
  part ∉ map node_name cs.
Proof.
  rewrite list_find_None, Forall_forall. intros Hcs Hin.
  apply list_elem_of_fmap in Hin as (c & -> & Hc). by apply (Hcs c).
Qed.

(** Tidiness is kept: a child is replaced by one of the same name and
    path, or a child of a new name is appended. *)
Lemma merge_parts_tidy entry parts :
  forall t t',
    merge_parts entry parts t = Js.Ok t' ->
    forall_dirs tidy t -> forall_dirs tidy t'.
Proof.
  induction parts as [| part rest IH]; intros t t' Hmerge Ht;
    [by inversion Hmerge; subst |].
  apply merge_parts_cons_Ok in Hmerge
    as (cname & cpath & cs & -> & [(k & ex & ex' & Hfind & Hrest & ->) |
                                   (child' & Hfind & Hrest & ->)]);
    apply forall_dirs_DirNode in Ht as [[Hnames Hpaths] Hcs];
    apply forall_dirs_DirNode;
    destruct (merge_parts_same _ _ _ _ Hrest) as (Hname & Hpath & _).
  - apply list_find_name_Some in Hfind as [Hk Hex].
    split; [split |].
    + to_fmap. rewrite list_fmap_insert, list_insert_id; [done |].
      rewrite list_lookup_fmap, Hk. simpl. congruence.
    + apply Forall_insert; [done |]. rewrite Hname, Hpath.
      by eapply (Forall_lookup_1 _ _ _ _ Hpaths).
    + apply Forall_insert; [done |]. eapply IH; [done |].
      by eapply (Forall_lookup_1 _ _ _ _ Hcs).
  - destruct (new_child_same entry cpath part rest) as [Hname0 Hpath0].
    split; [split |].
    + rewrite map_app. simpl. apply NoDup_app. split_and!; [done | |].
      * intros x Hx ->%list_elem_of_singleton.
        apply list_find_name_None in Hfind. by rewrite Hname, Hname0 in Hx.
      * apply NoDup_singleton.
    + apply Forall_app. split; [done |]. constructor; [| done]. congruence.
    + apply Forall_app. split; [done |]. constructor; [| done].
      eapply IH; [done |]. unfold new_child.
      destruct (_ || _); [| done]. apply forall_dirs_DirNode.
      repeat constructor.
Qed.

(** ** The kinds along a path *)

Lemma kind_at_nil t : kind_at [] t = Some (node_type t).
Proof. done. Qed.

Lemma kind_at_cons s q name path cs :
  kind_at (s :: q) (DirNode name path cs)
  = match list_find (fun c => node_name c = s) cs with
    | Some (_, c) => kind_at q c
    | None => None
    end.
Proof.
  unfold kind_at. simpl. by destruct (list_find _ cs) as [[k c] |].
Qed.

Lemma kind_at_FileNode q name path h :
  q <> [] -> kind_at q (FileNode name path h) = None.
Proof. by destruct q. Qed.

Lemma kind_at_new_child entry cpath part rest q :
  q <> [] -> kind_at q (new_child entry cpath part rest) = None.
Proof.
  intros Hq. unfold new_child.
  destruct (_ || _); [| by apply kind_at_FileNode].
  destruct q; [done |]. by rewrite kind_at_cons.
Qed.

Lemma new_child_type entry cpath part rest :
  node_type (new_child entry cpath part rest)
  = implied_kind entry (part :: rest) [part].
Proof.
  unfold new_child, implied_kind. by destruct (dir entry), rest.
Qed.

Lemma implied_at_nil_parts entry q : implied_at entry [] q = None.
Proof.
  unfold implied_at. rewrite bool_decide_eq_false_2; [done |].
  intros [Hq Hpre]. by apply prefix_nil_inv in Hpre.
Qed.

Lemma implied_at_cons_ne entry part rest s q :
  s <> part -> implied_at entry (part :: rest) (s :: q) = None.
Proof.
  intros Hs. unfold implied_at. rewrite bool_decide_eq_false_2; [done |].
  intros [_ Hpre]. by apply prefix_cons_inv_1 in Hpre.
Qed.

Lemma implied_at_cons entry part rest q :
  q <> [] ->
  implied_at entry (part :: rest) (part :: q) = implied_at entry rest q.
Proof.
  intros Hq. unfold implied_at, implied_kind. simpl.
  destruct (decide (q `prefix_of` rest)) as [Hpre | Hpre].
  - rewrite !bool_decide_eq_true_2; [done | done |].
    split; [done | by apply prefix_cons].
  - rewrite !bool_decide_eq_false_2; [done | tauto |].
    intros [_ Hpre']. by apply prefix_cons_inv_2 in Hpre'.
Qed.

Lemma implied_at_single entry part rest :
  implied_at entry (part :: rest) [part]
  = Some (implied_kind entry (part :: rest) [part]).
Proof.
  unfold implied_at. rewrite bool_decide_eq_true_2; [done |].
  split; [done |]. apply prefix_cons, prefix_nil.
Qed.

(** What a merge does to the kinds: a node that was there keeps its
    kind, and where there was none along the segments of the entry
    there is now one of the kind the entry implies. *)
Lemma merge_parts_kind_at entry parts :
  forall t t',
    merge_parts entry parts t = Js.Ok t' ->
    forall q,
      kind_at q t'
      = match kind_at q t with
        | Some k => Some k
        | None => implied_at entry parts q
        end.
Proof.
  induction parts as [| part rest IH]; intros t t' Hmerge q.
  { inversion Hmerge; subst. rewrite implied_at_nil_parts.
    by destruct (kind_at q t'). }
  apply merge_parts_cons_Ok in Hmerge
    as (cname & cpath & cs & -> & [(k & ex & ex' & Hfind & Hrest & ->) |
                                   (child' & Hfind & Hrest & ->)]);
    (destruct q as [| s q]; [done |]);
    destruct (merge_parts_same _ _ _ _ Hrest) as (Hname & _ & Htype);
    rewrite !kind_at_cons; destruct (decide (s = part)) as [-> | Hs].
  - destruct (list_find_name_Some _ _ _ _ Hfind) as [Hk Hex].
    rewrite (list_find_insert_same _ _ _ _ _ Hfind) by congruence.
    rewrite Hfind, (IH _ _ Hrest).
    destruct q as [| s q]; [done |]. by rewrite implied_at_cons.
  - destruct (list_find_name_Some _ _ _ _ Hfind) as [Hk Hex].
    rewrite (list_find_insert_other _ _ _ _ _ Hk) by congruence.
    rewrite implied_at_cons_ne by done.
    by destruct (list_find (fun c => node_name c = s) cs) as [[? c] |];
      [destruct (kind_at q c) |].
  - destruct (new_child_same entry cpath part rest) as [Hname0 _].
    rewrite list_find_snoc, decide_True, Hfind by congruence.
    rewrite (IH _ _ Hrest).
    destruct q as [| s q].
    + by rewrite kind_at_nil, new_child_type, implied_at_single.
    + by rewrite kind_at_new_child, implied_at_cons.
  - destruct (new_child_same entry cpath part rest) as [Hname0 _].
    rewrite implied_at_cons_ne by done.
    destruct (list_find (fun c => node_name c = s) cs) as [[k c] |] eqn:Hs'.
    + erewrite list_find_app_l by done. by destruct (kind_at q c).
    + rewrite list_find_snoc, decide_False by congruence. done.
Qed.

(** ** When a merge succeeds *)

Lemma implied_at_proper entry parts q :
  q <> [] -> q `prefix_of` parts -> q <> parts ->
  implied_at entry parts q = Some directory.
Proof.
  intros Hq Hpre Hne. unfold implied_at, implied_kind.
  rewrite bool_decide_eq_true_2 by done.
  destruct Hpre as [k ->]. destruct k as [| x k].
  - by rewrite app_nil_r in Hne.
  - rewrite length_app. simpl.
    replace (length q <? length q + S (length k))%nat with true;
      [by rewrite orb_true_r |].
    symmetry. apply Nat.ltb_lt. lia.
Qed.

(** The walk can only fail on a File node met before the last
    segment. *)
Lemma merge_parts_succeeds entry parts :
  forall t,
    parts = [] \/ node_type t = directory ->
    (forall q, q <> [] -> q `prefix_of` parts -> q <> parts ->
               kind_at q t <> Some file) ->
    exists t', merge_parts entry parts t = Js.Ok t'.
Proof.
  induction parts as [| part rest IH]; intros t Ht Hfree; [by eexists |].
  destruct Ht as [? | Ht]; [done |].
  destruct t as [cname cpath cs | ? ? ?]; [| done].
  rewrite merge_parts_cons.
  destruct (list_find _ cs) as [[k ex] |] eqn:Hfind.
  - destruct (IH ex) as [ex' ->]; [| | by eexists].
    + destruct rest as [| part' rest]; [by left | right].
      specialize (Hfree [part]).
      rewrite kind_at_cons, Hfind, kind_at_nil in Hfree.
      destruct (node_type ex); [done |]. exfalso. apply Hfree; try done.
      apply prefix_cons, prefix_nil.
    + intros q Hq Hpre Hne. specialize (Hfree (part :: q)).
      rewrite kind_at_cons, Hfind in Hfree.
      apply Hfree; [done | by apply prefix_cons | congruence].
  - destruct (IH (new_child entry cpath part rest)) as [c' ->];
      [| | by eexists].
    + unfold new_child.
      destruct rest; [by left | right]. by rewrite orb_true_r.
    + intros q Hq _ _. by rewrite kind_at_new_child.
Qed.

(** ** The merge of all the entries *)

Lemma merge_entries_same files :
  forall t t',
    merge_entries files t = Js.Ok t' ->
    node_name t' = node_name t /\ node_path t' = node_path t /\
    node_type t' = node_type t.
Proof.
  induction files as [| key files IH]; intros t t'; [by intros [= <-] |].
  simpl. intros (t1 & H1 & Hrest)%bind_Ok.
  apply merge_parts_same in H1 as (? & ? & ?).
  apply IH in Hrest as (? & ? & ?). split_and!; congruence.
Qed.

Lemma merge_entries_tidy files :
  forall t t',
    merge_entries files t = Js.Ok t' ->
    forall_dirs tidy t -> forall_dirs tidy t'.
Proof.
  induction files as [| key files IH]; intros t t'; [by intros [= <-] |].
  simpl. intros (t1 & H1 & Hrest)%bind_Ok Ht.
  eapply IH; [done |]. by eapply merge_parts_tidy.
Qed.

(** The kinds of the merged tree: where the tree had no node, the
    first entry that leads there decides. *)
Lemma merge_entries_kind_at files :
  forall t t',
    merge_entries files t = Js.Ok t' ->
    forall q,
      kind_at q t'
      = match kind_at q t with
        | Some k => Some k
        | None => first_implied q files
        end.
Proof.
  induction files as [| key files IH]; intros t t'.
  { intros [= <-] q. by destruct (kind_at q t). }
  simpl. intros (t1 & H1 & Hrest)%bind_Ok q.
  rewrite (IH _ _ Hrest), (merge_parts_kind_at _ _ _ _ H1).
  destruct (kind_at q t); [done |]. unfold implies.
  by destruct (implied_at _ _ q).
Qed.

Lemma first_implied_Some q files k :
  first_implied q files = Some k ->
  exists key, key ∈ files /\ implies key q = Some k.
Proof.
  induction files as [| key files IH]; [done |]. simpl.
  destruct (implies key q) as [k' |] eqn:Hkey.
  - intros [= <-]. exists key. split; [constructor | done].
  - intros (key' & ? & ?)%IH. exists key'. split; [by constructor | done].
Qed.

Lemma first_implied_None q files key :
  first_implied q files = None -> key ∈ files -> implies key q = None.
Proof.
  induction files as [| key' files IH]; [by intros _ ?%not_elem_of_nil |].
  simpl. destruct (implies key' q) eqn:Hkey; [done |].
  intros Hnone [-> | Hin]%elem_of_cons; auto.
Qed.

(** Entries that agree on the kinds may come in any order. *)
Lemma first_implied_perm q files files' :
  no_kind_conflict files -> files ≡ₚ files' ->
  first_implied q files = first_implied q files'.
Proof.
  intros Hagree Hperm.
  destruct (first_implied q files) as [k |] eqn:H1;
    destruct (first_implied q files') as [k' |] eqn:H2; try done.
  - apply first_implied_Some in H1 as (key & Hkey & Hk).
    apply first_implied_Some in H2 as (key' & Hkey' & Hk').
    rewrite <- Hperm in Hkey'. f_equal. eauto.
  - apply first_implied_Some in H1 as (key & Hkey & Hk).
    rewrite Hperm in Hkey.
    by rewrite (first_implied_None _ _ _ H2 Hkey) in Hk.
  - apply first_implied_Some in H2 as (key & Hkey & Hk).
    rewrite <- Hperm in Hkey.
    by rewrite (first_implied_None _ _ _ H1 Hkey) in Hk.
Qed.

Lemma no_kind_conflict_cons key files :
  no_kind_conflict (key :: files) -> no_kind_conflict files.
Proof.
  intros Hagree e1 e2 q k1 k2 H1 H2. apply Hagree; by constructor.
Qed.

(** Entries that agree on the kinds, merged into a tree that agrees
    with them, never meet a File node before their last segment. *)
Lemma merge_entries_succeeds files :
  forall t,
    node_type t = directory ->
    no_kind_conflict files ->
    (forall q k key k', q <> [] -> kind_at q t = Some k -> key ∈ files ->
                        implies key q = Some k' -> k' = k) ->
    exists t', merge_entries files t = Js.Ok t'.
Proof.
  induction files as [| key files IH]; intros t Ht Hagree Htree;
    [by eexists |].
  simpl.
  destruct (merge_parts_succeeds key.2 (path_parts key.1) t) as [t1 H1].
  { by right. }
  { intros q Hq Hpre Hne Hfile.
    pose proof (implied_at_proper key.2 _ _ Hq Hpre Hne) as Himp.
    specialize (Htree q file key directory Hq Hfile).
    discriminate Htree; [constructor | done]. }
  rewrite H1. simpl. apply IH.
  - apply merge_parts_same in H1 as (_ & _ & ->). done.
  - by eapply no_kind_conflict_cons.
  - intros q k key' k' Hq Hk Hkey' Himp.
    rewrite (merge_parts_kind_at _ _ _ _ H1) in Hk.
    destruct (kind_at q t) as [k0 |] eqn:Hk0.
    + inversion Hk; subst. eapply Htree; [done | done | | done].
      by constructor.
    + eapply (Hagree key' key); [by constructor | constructor | done | done].
Qed.

(** ** The sorted tree is fixed by the kinds along the paths *)

Lemma find_unique cs c :
  NoDup (map node_name cs) -> c ∈ cs ->
  exists k, list_find (fun x => node_name x = node_name c) cs = Some (k, c).
Proof.
  intros Hnames (k & Hk)%list_elem_of_lookup_1. exists k.
  apply list_find_Some. split_and!; [done | done |].
  intros j y Hj Hlt Hy.
  assert (j = k); [| lia].
  eapply (NoDup_lookup _ _ _ _ Hnames); to_fmap.
  - by rewrite list_lookup_fmap, Hj.
  - rewrite list_lookup_fmap, Hk. simpl. by rewrite Hy.
Qed.

Lemma NoDup_names_inj cs a b :
  NoDup (map node_name cs) -> a ∈ cs -> b ∈ cs ->
  node_name a = node_name b -> a = b.
Proof.
  intros Hnames Ha Hb Hab.
  destruct (find_unique _ _ Hnames Ha) as [i Hi].
  destruct (find_unique _ _ Hnames Hb) as [j Hj].
  rewrite Hab in Hi. congruence.
Qed.

Lemma shape_name_shape t : shape_name (shape t) = node_name t.
Proof. by destruct t. Qed.

Lemma shape_type_shape t : shape_type (shape t) = node_type t.
Proof. by destruct t. Qed.

Lemma compareShapes_shape cmp a b :
  compareShapes cmp (shape a) (shape b) = compareNodes cmp a b.
Proof.
  unfold compareShapes, compareNodes.
  by rewrite !shape_name_shape, !shape_type_shape.
Qed.

Section SortedShape.

Variable localeCompare : string -> string -> Z.
Hypothesis localeCompare_consistent : consistent localeCompare.

Lemma sorted_shape_name t :
  shape_name (sorted_shape localeCompare t) = node_name t.
Proof.
  unfold sorted_shape. by rewrite shape_name_shape, sortStructure_name.
Qed.

Lemma sorted_shape_type t :
  shape_type (sorted_shape localeCompare t) = node_type t.
Proof.
  unfold sorted_shape. by rewrite shape_type_shape, sortStructure_type.
Qed.

Lemma sorted_shape_DirNode name path cs :
  sorted_shape localeCompare (DirNode name path cs)
  = ShapeDir name path
      (sorted_shape localeCompare
         <$> Js.sort (compareNodes localeCompare) cs).
Proof.
  unfold sorted_shape. rewrite sortStructure_DirNode. simpl.
  f_equal. to_fmap. by rewrite <- list_fmap_compose.
Qed.

(** The sorted shapes of the children, in order. *)
Lemma sorted_shapes_sorted cs :
  StronglySorted (le_by (compareShapes localeCompare))
    (sorted_shape localeCompare
       <$> Js.sort (compareNodes localeCompare) cs).
Proof.
  eapply StronglySorted_fmap; [| by apply sort_compareNodes_sorted].
  intros a b. unfold le_by, compareShapes, compareNodes.
  by rewrite !sorted_shape_name, !sorted_shape_type.
Qed.

(** Two children whose names, if different, do not compare equal. *)
Lemma compareNodes_antisym cs a b :
  NoDup (map node_name cs) -> a ∈ cs -> b ∈ cs ->
  (localeCompare (node_name a) (node_name b) = 0%Z ->
   node_name a = node_name b) ->
  le_by (compareNodes localeCompare) a b ->
  le_by (compareNodes localeCompare) b a -> a = b.
Proof.
  intros Hnames Ha Hb Hties. unfold le_by, compareNodes.
  destruct localeCompare_consistent as [Hsgn _].
  specialize (Hsgn (node_name a) (node_name b)).
  destruct (node_type a), (node_type b); simpl; try lia;
    intros; apply (NoDup_names_inj cs); try done; apply Hties; lia.
Qed.

(** Two tidy trees of the same name and path, with nodes of the
    same kinds at the same places, have the same shape once
    sorted. *)
Lemma sorted_shape_ext t :
  forall t',
    forall_dirs tidy t -> forall_dirs tidy t' ->
    node_name t = node_name t' -> node_path t = node_path t' ->
    (forall q, kind_at q t = kind_at q t') ->
    no_ties_in localeCompare t ->
    sorted_shape localeCompare t = sorted_shape localeCompare t'.
Proof.
  induction t as [name path cs IH | name path h] using Node_ind_forall;
    intros t' Ht Ht' Hname Hpath Hkinds Hties;
    pose proof (Hkinds []) as Htype; rewrite !kind_at_nil in Htype;
    destruct t' as [name' path' cs' | name' path' h']; try done;
    simpl in Hname, Hpath; subst name' path'; [| done].
  rewrite !sorted_shape_DirNode. f_equal.
  apply forall_dirs_DirNode in Ht as [[Hnames Hpaths] Hcs].
  apply forall_dirs_DirNode in Ht' as [[Hnames' Hpaths'] Hcs'].
  rewrite Forall_forall in IH, Hpaths, Hcs, Hpaths', Hcs'.
  (* children of the same name have the same sorted shape *)
  assert (forall c c', c ∈ cs -> c' ∈ cs' -> node_name c = node_name c' ->
                       sorted_shape localeCompare c
                       = sorted_shape localeCompare c') as Hsame.
  { intros c c' Hc Hc' Hcc'.
    destruct (find_unique _ _ Hnames Hc) as [i Hi].
    destruct (find_unique _ _ Hnames' Hc') as [i' Hi'].
    apply IH; auto.
    - rewrite Hpaths, Hpaths' by done. by rewrite Hcc'.
    - intros q. specialize (Hkinds (node_name c :: q)).
      rewrite !kind_at_cons, Hi in Hkinds.
      by rewrite Hcc', Hi' in Hkinds.
    - intros q a b ka kb Ha Hb.
      apply (Hties (node_name c :: q) a b ka kb);
        simpl; by rewrite kind_at_cons, Hi. }
  (* the two arrays hold children of the same names *)
  assert (forall c, c ∈ cs -> exists c', c' ∈ cs' /\
                                        node_name c = node_name c') as Hto.
  { intros c Hc. destruct (find_unique _ _ Hnames Hc) as [i Hi].
    specialize (Hkinds [node_name c]).
    rewrite !kind_at_cons, Hi, kind_at_nil in Hkinds.
    destruct (list_find _ cs') as [[i' c'] |] eqn:Hi'; [| done].
    apply list_find_Some in Hi' as (Hc' & ? & _).
    exists c'. split; [by eapply list_elem_of_lookup_2 | done]. }
  assert (forall c', c' ∈ cs' -> exists c, c ∈ cs /\
                                          node_name c = node_name c') as Hfrom.
  { intros c' Hc'. destruct (find_unique _ _ Hnames' Hc') as [i' Hi'].
    specialize (Hkinds [node_name c']).
    rewrite !kind_at_cons, Hi', kind_at_nil in Hkinds.
    destruct (list_find _ cs) as [[i c] |] eqn:Hi; [| done].
    apply list_find_Some in Hi as (Hc & ? & _).
    exists c. split; [by eapply list_elem_of_lookup_2 | done]. }
  assert (forall a b, a ∈ cs -> b ∈ cs ->
                      localeCompare (node_name a) (node_name b) = 0%Z ->
                      node_name a = node_name b) as Hties_cs.
  { intros a b Ha Hb.
    destruct (find_unique _ _ Hnames Ha) as [i Hi].
    destruct (find_unique _ _ Hnames Hb) as [j Hj].
    apply (Hties [] _ _ (node_type a) (node_type b));
      simpl; rewrite kind_at_cons; [by rewrite Hi | by rewrite Hj]. }
  assert (forall l : list Node,
             NoDup (map node_name l) ->
             NoDup (sorted_shape localeCompare <$> l)) as Hnodup.
  { intros l Hl. apply (NoDup_fmap_1 shape_name).
    rewrite <- list_fmap_compose.
    erewrite list_fmap_ext; [exact Hl |].
    intros ? c _. simpl. apply sorted_shape_name. }
  apply (StronglySorted_unique_strong
           (le_by (compareShapes localeCompare)));
    [| apply sorted_shapes_sorted | apply sorted_shapes_sorted |].
  - intros x x' (c & -> & Hc%elem_of_sort)%list_elem_of_fmap
           (c' & -> & Hc'%elem_of_sort)%list_elem_of_fmap.
    destruct (Hfrom c' Hc') as (c'' & Hc'' & Hname'').
    rewrite <- (Hsame c'' c' Hc'' Hc' Hname'').
    unfold le_by, compareShapes.
    rewrite !sorted_shape_name, !sorted_shape_type.
    intros Hle Hge. f_equal.
    apply (compareNodes_antisym cs); auto.
  - apply NoDup_Permutation.
    + apply Hnodup. to_fmap. by rewrite sort_perm.
    + apply Hnodup. to_fmap. by rewrite sort_perm.
    + intros x. rewrite !list_elem_of_fmap. split.
      * intros (c & -> & Hc%elem_of_sort).
        destruct (Hto c Hc) as (c' & Hc' & Hcc').
        exists c'. split; [by apply Hsame | by apply elem_of_sort].
      * intros (c' & -> & Hc'%elem_of_sort).
        destruct (Hfrom c' Hc') as (c & Hc & Hcc').
        exists c. split; [symmetry; by apply Hsame | by apply elem_of_sort].
Qed.

End SortedShape.

(** ** Code-point order is consistent *)

Lemma ascii_compare_refl c : Ascii.compare c c = Eq.
Proof. unfold Ascii.compare. apply N.compare_refl. Qed.

Lemma ascii_compare_trans a b c :
  Ascii.compare a b <> Gt -> Ascii.compare b c <> Gt ->
  Ascii.compare a c <> Gt.
Proof.
  unfold Ascii.compare. rewrite !N.compare_gt_iff. lia.
Qed.

Lemma ascii_compare_Lt_Eq a b c :
  Ascii.compare a b = Lt -> Ascii.compare b c <> Gt ->
  Ascii.compare a c = Lt.
Proof.
  unfold Ascii.compare. rewrite N.compare_gt_iff, !N.compare_lt_iff. lia.
Qed.

Lemma ascii_compare_Eq_Lt a b c :
  Ascii.compare a b <> Gt -> Ascii.compare b c = Lt ->
  Ascii.compare a c = Lt.
Proof.
  unfold Ascii.compare. rewrite N.compare_gt_iff, !N.compare_lt_iff. lia.
Qed.

Lemma string_compare_trans a :
  forall b c, String.compare a b <> Gt -> String.compare b c <> Gt ->
              String.compare a c <> Gt.
Proof.
  induction a as [| x a IH]; intros [| y b] [| z c]; simpl; try done.
  destruct (Ascii.compare x y) eqn:Hxy; [| | done];
    destruct (Ascii.compare y z) eqn:Hyz; try done; intros Hab Hbc.
  - apply Ascii.compare_eq_iff in Hxy, Hyz. subst.
    rewrite ascii_compare_refl. by eapply IH.
  - apply Ascii.compare_eq_iff in Hxy. subst. by rewrite Hyz.
  - apply Ascii.compare_eq_iff in Hyz. subst. by rewrite Hxy.
  - by rewrite (ascii_compare_Lt_Eq x y z) by (done || congruence).
Qed.

Lemma codepointCompare_le a b :
  (codepointCompare a b <= 0)%Z <-> String.compare a b <> Gt.
Proof.
  unfold codepointCompare. destruct (String.compare a b); split; (done || lia).
Qed.

Lemma codepointCompare_consistent : consistent codepointCompare.
Proof.
  split.
  - intros a b. unfold codepointCompare.
    rewrite (String.compare_antisym a b).
    by destruct (String.compare b a).
  - intros a b c. rewrite !codepointCompare_le. apply string_compare_trans.
Qed.

Lemma codepointCompare_no_ties a b : codepointCompare a b = 0%Z -> a = b.
Proof.
  unfold codepointCompare. destruct (String.compare a b) eqn:Hab; try done.
  intros _. by apply String.compare_eq_iff.
Qed.

(** A comparator read through a function stays consistent. *)
Lemma consistent_through (f : string -> string) cmp :
  consistent cmp -> consistent (fun a b => cmp (f a) (f b)).
Proof. intros [Hsgn Htrans]. split; intros; eauto. Qed.

Lemma canonCompare_consistent : consistent canonCompare.
Proof. apply (consistent_through compose), codepointCompare_consistent. Qed.

(** * The claims *)

(** ** C1: canonical ordering *)

(** C1.  After the sort pass, every children array of the tree, at
    every depth, has its Directory children before its File children
    and, within each kind, the names in non-decreasing [localeCompare]
    order: for the tree [extractZipStructure] returns and for the tree
    [readDirectoryStructure] returns.  [localeCompare] is taken to be
    consistent, as a collation is. *)
Theorem canonical_ordering (localeCompare : string -> string -> Z) :
  consistent localeCompare ->
  (forall file events r d cs,
      extractZipStructure localeCompare file = (events, Js.Ok r) ->
      within d (root r) -> node_children d = Some cs ->
      ordered localeCompare cs) /\
  (forall entry currentPath d cs,
      within d (readDirectoryStructure localeCompare entry currentPath) ->
      node_children d = Some cs ->
      ordered localeCompare cs).
Proof.
  intros Hcmp. split.
  - intros file events r d cs Hex Hd Hcs.
    apply extractZipStructure_Ok in Hex as (files & _ & Hbuild).
    apply build_zip_tree_root in Hbuild as (t & fm & _ & ->). simpl in Hd.
    destruct d as [name path cs' | ? ? ?]; [| done].
    inversion Hcs; subst.
    by eapply (proj1 (forall_dirs_within _ _)
                 (sortStructure_ordered localeCompare Hcmp t)).
  - intros entry currentPath d cs Hd Hcs.
    destruct d as [name path cs' | ? ? ?]; [| done].
    inversion Hcs; subst.
    eapply (proj1 (forall_dirs_within
                     (fun _ _ cs => ordered localeCompare cs) _));
      [| exact Hd].
    apply readDirectoryStructure_forall_dirs. intros.
    by apply sorted_ordered, sort_compareNodes_sorted.
Qed.

Lemma canonical_ordering_witness :
  ordered codepointCompare merge_children_of_spec /\
  ordered codepointCompare
    [DirNode "src" "proj/src"
       [DirNode "utils" "proj/src/utils"
          [FileNode "helpers.js" "proj/src/utils/helpers.js"
             (fileEntry (FileEntry "helpers.js"))];
        FileNode "index.js" "proj/src/index.js"
          (fileEntry (FileEntry "index.js"))];
     FileNode "README.md" "proj/README.md" (fileEntry (FileEntry "README.md"))].
Proof.
  split.
  - eapply (proj1 (canonical_ordering codepointCompare
                     codepointCompare_consistent)
              (archive 1024 "a.zip" merge_entries_of_spec)).
    + vm_compute. reflexivity.
    + apply within_here.
    + reflexivity.
  - eapply (proj2 (canonical_ordering codepointCompare
                     codepointCompare_consistent) proj "").
    + apply within_here.
    + reflexivity.
Defined.

(** ** C2: the paths of the children *)

Lemma tidy_sorted cmp name path cs :
  tidy name path cs ->
  tidy name path (map (sortStructure cmp) (Js.sort (compareNodes cmp) cs)).
Proof.
  intros [Hnames Hpaths]. split.
  - rewrite map_map. erewrite map_ext; [| apply sortStructure_name].
    to_fmap. by rewrite sort_perm.
  - rewrite Forall_forall in Hpaths |- *.
    intros c (c' & -> & Hc'%elem_of_sort)%list_elem_of_fmap.
    rewrite sortStructure_path, sortStructure_name. auto.
Qed.

(** The tree an archive yields is tidy. *)
Lemma extractZipStructure_tidy cmp file events r :
  extractZipStructure cmp file = (events, Js.Ok r) ->
  forall_dirs tidy (root r).
Proof.
  intros (files & _ & Hbuild)%extractZipStructure_Ok.
  apply build_zip_tree_Ok in Hbuild as (t & Hmerge & ->).
  apply sortStructure_forall_dirs; [intros; by apply tidy_sorted |].
  eapply merge_entries_tidy; [done |].
  apply forall_dirs_DirNode. repeat constructor.
Qed.

Lemma child_of_DirNode c name path cs :
  child_of c (DirNode name path cs) <-> c ∈ cs.
Proof.
  split; [by intros (? & [= <-] & ?) | intros; by exists cs].
Qed.

Lemma child_of_FileNode c name path h : ~ child_of c (FileNode name path h).
Proof. by intros (? & ? & _). Qed.

(** C2, as the code has it.  In an archive tree a child's path is
    its parent's path, a slash and its name, also under the root,
    whose path is empty: there the path is the name after a leading
    slash.  In a directory tree a child's path is its parent's path,
    a slash and its name, but for a subdirectory of a directory of
    empty path, whose path is its name alone. *)
Theorem child_paths (localeCompare : string -> string -> Z) :
  (forall file events r parent child,
      extractZipStructure localeCompare file = (events, Js.Ok r) ->
      within parent (root r) -> child_of child parent ->
      node_path child = node_path parent +:+ "/" +:+ node_name child) /\
  (forall entry currentPath parent child,
      within parent (readDirectoryStructure localeCompare entry currentPath) ->
      child_of child parent ->
      node_path child
      = match node_type child with
        | directory => directory_path (node_path parent) (node_name child)
        | file => node_path parent +:+ "/" +:+ node_name child
        end).
Proof.
  split.
  - intros file events r parent child Hex Hparent Hchild.
    destruct parent as [name path cs | ? ? ?];
      [| by apply child_of_FileNode in Hchild].
    apply child_of_DirNode in Hchild.
    apply extractZipStructure_tidy in Hex.
    apply (proj1 (forall_dirs_within _ _) Hex) in Hparent as [_ Hpaths].
    rewrite Forall_forall in Hpaths. by apply Hpaths.
  - intros entry currentPath parent child Hparent Hchild.
    destruct parent as [name path cs | ? ? ?];
      [| by apply child_of_FileNode in Hchild].
    apply child_of_DirNode in Hchild. revert child Hchild.
    apply Forall_forall.
    revert Hparent.
    apply (proj1 (forall_dirs_within
                    (fun _ path cs =>
                       Forall (fun c =>
                                 node_path c
                                 = match node_type c with
                                   | directory =>
                                       directory_path path (node_name c)
                                   | file => path +:+ "/" +:+ node_name c
                                   end) cs) _)).
    apply readDirectoryStructure_forall_dirs. intros n cur entries path'.
    rewrite Forall_forall.
    intros c (item & -> & _)%elem_of_sort%list_elem_of_fmap.
    rewrite item_node_path, item_node_type, item_node_name.
    by destruct (isDirectory item).
Qed.

Lemma child_paths_witness :
  "/a" = "" +:+ "/" +:+ "a" /\
  "proj/README.md" = "proj" +:+ "/" +:+ "README.md".
Proof.
  split.
  - apply (proj1 (child_paths codepointCompare)
             (archive 1 "a.zip" [zip_entry "a" false])
             [LoadAsync (archive 1 "a.zip" [zip_entry "a" false])]
             (mkZipRoot
                (DirNode "a" ""
                   [FileNode "a" "/a" (zipEntry (mkZipObject "a" false))])
                (<["/a" := mkZipObject "a" false]> ∅))
             (DirNode "a" ""
                [FileNode "a" "/a" (zipEntry (mkZipObject "a" false))])
             (FileNode "a" "/a" (zipEntry (mkZipObject "a" false)))).
    + reflexivity.
    + apply within_here.
    + eexists. split; [reflexivity | left].
  - apply (proj2 (child_paths codepointCompare) proj ""
             (readDirectoryStructure codepointCompare proj "")
             (FileNode "README.md" "proj/README.md"
                (fileEntry (FileEntry "README.md")))).
    + apply within_here.
    + eexists. split; [reflexivity | right; left].
Defined.

(** C2, as stated, fails: under the archive root, whose path is
    empty, the path of a child is not its name alone. *)
Lemma child_path_not_name_alone :
  ~ (forall file events r parent child,
        extractZipStructure codepointCompare file = (events, Js.Ok r) ->
        within parent (root r) -> child_of child parent ->
        node_path child
        = directory_path (node_path parent) (node_name child)).
Proof.
  intros Hclaim.
  specialize (Hclaim (archive 1 "a.zip" [zip_entry "a" false]) _ _
                (DirNode "a" ""
                   [FileNode "a" "/a" (zipEntry (mkZipObject "a" false))])
                (FileNode "a" "/a" (zipEntry (mkZipObject "a" false)))
                eq_refl (within_here _)).
  discriminate Hclaim. eexists. split; [reflexivity | left].
Qed.

(** ** C3: the rendering of [proj] *)

(** C3, as the code has it.  The sorted tree of [proj] renders as six
    lines, the root line without connector and with a trailing slash,
    each level indented by one more unit of four columns; in every
    directory the Directory children come first, so [src/] stands
    before [README.md] and [utils/] before [index.js]. *)
Theorem render_proj (localeCompare : string -> string -> Z) :
  renderStructure (readDirectoryStructure localeCompare proj "") "" true true
  = Js.Ok proj_lines.
Proof. reflexivity. Qed.

(** C3, as stated, fails: the lines of the specification put the
    files first. *)
Lemma render_proj_not_as_stated :
  renderStructure (readDirectoryStructure codepointCompare proj "") "" true true
  <> Js.Ok proj_lines_of_spec.
Proof. intros H. vm_compute in H. discriminate H. Qed.

(** ** C4: the merge creates no duplicate *)

(** C4.  The entries [["a/", "a/b.txt", "a/c/", "a/c/d.txt"]] give a
    root with the one child directory [a], whose children are the
    directory [c], holding the one file [d.txt], and the file [b.txt];
    and whatever the entries, no directory of the tree returned has
    two children of one name. *)
Theorem merge_idempotent (localeCompare : string -> string -> Z) :
  (forall bytes name,
      (bytes <= 50 * 1024 * 1024)%Z ->
      returned_tree
        (extractZipStructure localeCompare
           (archive bytes name merge_entries_of_spec))
      = Some (DirNode (Js.replace_zip_suffix name) ""
                merge_children_of_spec)) /\
  (forall file events r d cs,
      extractZipStructure localeCompare file = (events, Js.Ok r) ->
      within d (root r) -> node_children d = Some cs ->
      NoDup (map node_name cs)).
Proof.
  split.
  - intros bytes name Hbytes.
    unfold extractZipStructure, returned_tree, MAX_FILE_SIZE_MB. simpl.
    destruct (bytes >? _)%Z eqn:Hgt; [apply Z.gtb_lt in Hgt; lia |].
    reflexivity.
  - intros file events r d cs Hex Hd Hcs.
    destruct d as [name path cs' | ? ? ?]; [| done]. inversion Hcs; subst.
    apply extractZipStructure_tidy in Hex.
    by apply (proj1 (forall_dirs_within _ _) Hex) in Hd as [Hnames _].
Qed.

Lemma merge_idempotent_witness :
  returned_tree
    (extractZipStructure codepointCompare
       (archive 2048 "site.zip" merge_entries_of_spec))
  = Some (DirNode "site" "" merge_children_of_spec)
  /\ NoDup (map node_name merge_children_of_spec).
Proof.
  split.
  - apply (proj1 (merge_idempotent codepointCompare) 2048%Z "site.zip"). lia.
  - eapply (proj2 (merge_idempotent codepointCompare)
              (archive 2048 "site.zip" merge_entries_of_spec)).
    + vm_compute. reflexivity.
    + apply within_here.
    + reflexivity.
Defined.

(** ** C5: the size ceiling *)

(** C5.  A file of more than [50 * 1024 * 1024] bytes makes
    [extractZipStructure] fail with the size-limit error without any
    call to [loadAsync], and no tree is returned; at or below the
    limit the size check lets the file through: [loadAsync] is
    called, once, and the outcome is that of decoding and building. *)
Theorem size_ceiling (localeCompare : string -> string -> Z)
    (file : DroppedFile) :
  ((file_size file > 50 * 1024 * 1024)%Z ->
   extractZipStructure localeCompare file
   = ([], Js.Throw
            (Js.mkError "Failed to process ZIP: File exceeds 50MB limit")))
  /\
  ((file_size file <= 50 * 1024 * 1024)%Z ->
   extractZipStructure localeCompare file
   = ([LoadAsync file],
      match decoded file with
      | inl msg => Js.Throw (Js.mkError ("Failed to process ZIP: " +:+ msg))
      | inr files =>
          match build_zip_tree localeCompare (file_name file) files with
          | Js.Ok r => Js.Ok r
          | Js.Throw err =>
              Js.Throw
                (Js.mkError ("Failed to process ZIP: " +:+ Js.message err))
          end
      end)).
Proof.
  unfold extractZipStructure, MAX_FILE_SIZE_MB. split; intros Hsize.
  - by rewrite (proj2 (Z.gtb_lt _ _)) by lia.
  - destruct (file_size file >? _)%Z eqn:Hgt;
      [apply Z.gtb_lt in Hgt; lia |].
    by destruct (decoded file).
Qed.

Lemma size_ceiling_witness :
  extractZipStructure codepointCompare
    (archive (50 * 1024 * 1024 + 1) "big.zip" merge_entries_of_spec)
  = ([], Js.Throw
           (Js.mkError "Failed to process ZIP: File exceeds 50MB limit"))
  /\
  fst (extractZipStructure codepointCompare
         (archive (50 * 1024 * 1024) "full.zip" merge_entries_of_spec))
  = [LoadAsync (archive (50 * 1024 * 1024) "full.zip" merge_entries_of_spec)].
Proof.
  split.
  - apply (proj1 (size_ceiling codepointCompare _)). simpl. lia.
  - rewrite (proj2 (size_ceiling codepointCompare _)); [reflexivity |].
    simpl. lia.
Defined.

(** ** C6: the kinds of the nodes an entry creates *)

(** C6.  When the walk of an entry of [n] segments ends well, the
    node it created for its [k]-th segment (there was none at that
    place before) is a Directory if the entry has its [dir] flag set
    or [k < n], and a File otherwise: Directory nodes for the
    segments before the last, and at the last the kind the flag
    says. *)
Theorem created_kinds (st st' : Node * gmap string ZipObject)
    (key : string * ZipObject) (q : list string) :
  add_entry st key = Js.Ok st' ->
  q <> [] -> q `prefix_of` path_parts key.1 ->
  lookup_path q st.1 = None ->
  exists node,
    lookup_path q st'.1 = Some node /\
    node_type node
    = if dir key.2 || (length q <? length (path_parts key.1))%nat
      then directory else file.
Proof.
  intros Hadd Hq Hpre Hnone.
  pose proof (add_entry_tree st key) as Htree. rewrite Hadd in Htree.
  destruct st' as [t' fm']. simpl in Htree. symmetry in Htree.
  pose proof (merge_parts_kind_at _ _ _ _ Htree q) as Hkind.
  unfold kind_at in Hkind. rewrite Hnone in Hkind. simpl in Hkind.
  unfold implied_at in Hkind. rewrite bool_decide_eq_true_2 in Hkind by done.
  simpl. destruct (lookup_path q t') as [node |]; [| done].
  exists node. split; [done |]. by inversion Hkind.
Qed.

Lemma created_kinds_witness :
  (exists node,
      lookup_path ["a"]
        (DirNode "x" ""
           [DirNode "a" "/a"
              [FileNode "b.txt" "/a/b.txt"
                 (zipEntry (mkZipObject "a/b.txt" false))]])
      = Some node /\ node_type node = directory) /\
  (exists node,
      lookup_path ["a"; "b.txt"]
        (DirNode "x" ""
           [DirNode "a" "/a"
              [FileNode "b.txt" "/a/b.txt"
                 (zipEntry (mkZipObject "a/b.txt" false))]])
      = Some node /\ node_type node = file).
Proof.
  split.
  - apply (created_kinds (DirNode "x" "" [], ∅)
             (DirNode "x" ""
                [DirNode "a" "/a"
                   [FileNode "b.txt" "/a/b.txt"
                      (zipEntry (mkZipObject "a/b.txt" false))]],
              <["/a/b.txt" := mkZipObject "a/b.txt" false]> ∅)
             (zip_entry "a/b.txt" false) ["a"]).
    + reflexivity.
    + discriminate.
    + by exists ["b.txt"].
    + reflexivity.
  - apply (created_kinds (DirNode "x" "" [], ∅)
             (DirNode "x" ""
                [DirNode "a" "/a"
                   [FileNode "b.txt" "/a/b.txt"
                      (zipEntry (mkZipObject "a/b.txt" false))]],
              <["/a/b.txt" := mkZipObject "a/b.txt" false]> ∅)
             (zip_entry "a/b.txt" false) ["a"; "b.txt"]).
    + reflexivity.
    + discriminate.
    + by exists [].
    + reflexivity.
Defined.

(** ** C7: one call to [readEntries] *)

(** C7, as the code has it.  For every directory it visits,
    [readDirectoryStructure] calls [readEntries] once and takes what
    that call delivers for the entries of the directory: the children
    of the node are the nodes of the entries of the first batch, and
    nothing when the reader has nothing to deliver; later batches are
    not asked for. *)
Theorem first_batch_only (localeCompare : string -> string -> Z)
    (name currentPath : string) :
  let path := directory_path currentPath name in
  (forall batch later,
      exists cs,
        readDirectoryStructure localeCompare
          (mkDirectoryEntry name (Some batch :: later)) currentPath
        = DirNode name path cs /\
        cs ≡ₚ map (item_node localeCompare path) batch) /\
  readDirectoryStructure localeCompare (mkDirectoryEntry name []) currentPath
  = DirNode name path [].
Proof.
  split; [| done]. intros batch later.
  rewrite readDirectoryStructure_eq. eexists. split; [done |].
  apply sort_perm.
Qed.

(** C7, as stated, fails: an entry of the second batch is not among
    the children. *)
Lemma later_batches_not_read :
  ~ (forall name reader currentPath item,
        item ∈ delivered reader ->
        exists c,
          child_of c (readDirectoryStructure codepointCompare
                        (mkDirectoryEntry name reader) currentPath) /\
          node_name c = entry_name item).
Proof.
  intros Hclaim.
  destruct (Hclaim "d" [Some [FileEntry "a"]; Some [FileEntry "b"]] ""
              (FileEntry "b")) as (c & Hc & Hname).
  { right. left. }
  apply child_of_DirNode in Hc. vm_compute in Hc.
  apply list_elem_of_singleton in Hc. by subst.
Qed.

(** ** C8: a listing that fails *)

Lemma readEntries_heal reader :
  readEntries
    (map (fun result =>
            match result with
            | None => Some []
            | Some batch =>
                Some (map (fun item =>
                             match item with
                             | DirectoryEntry d => DirectoryEntry (heal d)
                             | FileEntry f => FileEntry f
                             end) batch)
            end) reader)
  = map (fun item =>
           match item with
           | DirectoryEntry d => DirectoryEntry (heal d)
           | FileEntry f => FileEntry f
           end) (readEntries reader).
Proof. by destruct reader as [| [batch |] reader]. Qed.

(** The node of every listed entry is in the tree. *)
Lemma listed_within cmp entry currentPath item path :
  listed entry currentPath item path ->
  within (item_node cmp path item)
         (readDirectoryStructure cmp entry currentPath).
Proof.
  induction 1 as [name reader currentPath item Hitem
                 | name reader currentPath d item path Hd _ IH];
    rewrite readDirectoryStructure_eq; cbv zeta.
  - eapply within_child; [| apply within_here].
    apply elem_of_sort. to_fmap. apply list_elem_of_fmap. by exists item.
  - eapply within_child; [| exact IH].
    apply elem_of_sort. to_fmap. apply list_elem_of_fmap.
    by exists (DirectoryEntry d).
Qed.

(** C8.  A directory whose listing fails gets a node with no
    children, be it the directory the build starts from or one listed
    at any depth below it; and the build goes on: every entry that is
    listed, next to a failing directory or anywhere else, has its node
    in the tree returned, which is the tree of the directory in which
    every listing that fails is an empty listing.
    [readDirectoryStructure] always returns a tree, and the drop of a
    directory hands that tree to the caller, not an error. *)
Theorem listing_failure_swallowed (localeCompare : string -> string -> Z) :
  (forall name later currentPath,
      readDirectoryStructure localeCompare
        (mkDirectoryEntry name (None :: later)) currentPath
      = DirNode name (directory_path currentPath name) []) /\
  (forall entry currentPath name later path,
      listed entry currentPath
             (DirectoryEntry (mkDirectoryEntry name (None :: later))) path ->
      within (DirNode name (directory_path path name) [])
             (readDirectoryStructure localeCompare entry currentPath)) /\
  (forall entry currentPath item path,
      listed entry currentPath item path ->
      within (item_node localeCompare path item)
             (readDirectoryStructure localeCompare entry currentPath)) /\
  (forall entry currentPath,
      readDirectoryStructure localeCompare entry currentPath
      = readDirectoryStructure localeCompare (heal entry) currentPath) /\
  (forall item rest entry,
      webkitGetAsEntry item = Some (Some (DirectoryEntry entry)) ->
      dropped_structure localeCompare (item :: rest)
      = Js.Ok (DirectoryTree
                 (readDirectoryStructure localeCompare entry ""))).
Proof.
  split_and!.
  - done.
  - intros entry currentPath name later path Hlisted.
    apply (listed_within localeCompare) in Hlisted. exact Hlisted.
  - intros entry currentPath item path. apply listed_within.
  - induction entry as [name reader IH] using DirectoryEntry_ind_forall.
    intros currentPath. cbn [heal].
    rewrite !readDirectoryStructure_eq, readEntries_heal. cbv zeta.
    f_equal. f_equal. rewrite map_map. apply map_ext_in.
    intros item Hitem.
    destruct reader as [| [batch |] reader]; try done.
    apply Forall_cons_1 in IH as [IH _]. rewrite Forall_forall in IH.
    apply list_elem_of_In, IH in Hitem.
    destruct item as [f | d]; [done | apply Hitem].
  - intros item rest entry Hentry. unfold dropped_structure.
    by rewrite Hentry.
Qed.

Lemma listing_failure_swallowed_witness :
  within (DirNode "src" "proj/src" [])
         (readDirectoryStructure codepointCompare proj_denied "") /\
  within (FileNode "README.md" "proj/README.md"
            (fileEntry (FileEntry "README.md")))
         (readDirectoryStructure codepointCompare proj_denied "").
Proof.
  destruct (listing_failure_swallowed codepointCompare)
    as (_ & Hfailing & Hlisted & _ & _).
  split.
  - apply (Hfailing proj_denied "" "src" [Some [FileEntry "index.js"]]
             "proj").
    apply (listed_here "proj" _ "").
    right. left.
  - apply (Hlisted proj_denied "" (FileEntry "README.md") "proj").
    apply (listed_here "proj" _ "").
    left.
Defined.

(** ** C9: all folders expanded *)

Lemma getAllFolderPaths_DirNode name path cs :
  getAllFolderPaths (DirNode name path cs)
  = path :: concat (map getAllFolderPaths cs).
Proof.
  simpl. change (path :: concat (map getAllFolderPaths cs))
    with ([path] ++ concat (map getAllFolderPaths cs)).
  generalize [path]. induction cs as [| c cs IH]; intros acc; simpl.
  - by rewrite app_nil_r.
  - by rewrite IH, app_assoc.
Qed.

(** [getAllFolderPaths] collects the paths of the Directory nodes. *)
Lemma elem_of_getAllFolderPaths t p :
  p ∈ getAllFolderPaths t <->
  exists d, within d t /\ node_type d = directory /\ node_path d = p.
Proof.
  induction t as [name path cs IH | name path h] using Node_ind_forall.
  - rewrite getAllFolderPaths_DirNode, elem_of_cons. split.
    + intros [-> | Hin].
      * eexists. split; [apply within_here | done].
      * apply list_elem_of_In, in_concat in Hin as (ps & Hps & Hp).
        apply list_elem_of_In, list_elem_of_fmap in Hps as (c & -> & Hc).
        rewrite Forall_forall in IH. apply list_elem_of_In in Hp.
        apply IH in Hp as (d & Hd & ? & ?); [| done].
        exists d. split; [by econstructor | done].
    + intros (d & Hd & Htype & Hpath).
      apply within_DirNode in Hd as [-> | (c & Hc & Hd)]; [by left |].
      right. apply list_elem_of_In, in_concat.
      exists (getAllFolderPaths c). split.
      * apply list_elem_of_In, list_elem_of_fmap. eauto.
      * rewrite Forall_forall in IH. apply list_elem_of_In, IH; eauto.
  - simpl. rewrite elem_of_nil. split; [done |].
    intros (d & ->%within_FileNode & ? & _). done.
Qed.

(** The answer for any node handed in as [structure]: the guard
    [allPaths.length > 0] holds exactly of a Directory root. *)
Lemma areAllFoldersExpanded_Some t (expandedFolders : gset string) :
  areAllFoldersExpanded (Some t) expandedFolders = true <->
  node_type t = directory /\
  (forall p, p ∈ getAllFolderPaths t -> p ∈ expandedFolders).
Proof.
  unfold areAllFoldersExpanded.
  destruct t as [name path cs | name path h]; [| by split; [| intros []]].
  rewrite getAllFolderPaths_DirNode. simpl.
  rewrite andb_true_iff, forallb_forall, bool_decide_eq_true.
  split.
  - intros [Hpath Hrest]. split; [done |].
    intros p [-> | Hp]%elem_of_cons; [done |].
    apply list_elem_of_In, Hrest in Hp. by apply bool_decide_eq_true in Hp.
  - intros [_ Hall]. split; [apply Hall; by left |].
    intros p Hp%list_elem_of_In. apply bool_decide_eq_true.
    apply Hall. by right.
Qed.

(** C9.  [areAllFoldersExpanded] returns false when there is no tree;
    for a tree (its root is a Directory, as both builders make it) it
    returns true if and only if every path of [getAllFolderPaths] is
    in the expanded set; and [getAllFolderPaths] collects exactly the
    paths of the Directory nodes of the tree. *)
Theorem all_folders_expanded :
  (forall expandedFolders,
      areAllFoldersExpanded None expandedFolders = false) /\
  (forall name path cs (expandedFolders : gset string),
      areAllFoldersExpanded (Some (DirNode name path cs)) expandedFolders
      = true <->
      (forall p, p ∈ getAllFolderPaths (DirNode name path cs) ->
                 p ∈ expandedFolders)) /\
  (forall t p,
      p ∈ getAllFolderPaths t <->
      exists d, within d t /\ node_type d = directory /\ node_path d = p).
Proof.
  split; [done |]. split; [| apply elem_of_getAllFolderPaths].
  intros name path cs expandedFolders.
  rewrite areAllFoldersExpanded_Some. simpl. tauto.
Qed.

(** The trees the builders return have a Directory root. *)
Lemma readDirectoryStructure_directory cmp entry currentPath :
  node_type (readDirectoryStructure cmp entry currentPath) = directory.
Proof. by destruct entry. Qed.

Lemma extractZipStructure_directory cmp file events r :
  extractZipStructure cmp file = (events, Js.Ok r) ->
  node_type (root r) = directory /\ node_path (root r) = "".
Proof.
  intros (files & _ & Hbuild)%extractZipStructure_Ok.
  apply build_zip_tree_Ok in Hbuild as (t & Hmerge & ->).
  rewrite sortStructure_type, sortStructure_path.
  by apply merge_entries_same in Hmerge as (_ & -> & ->).
Qed.

(** ** C10: the order of the entries *)

Lemma implies_Some key q k :
  implies key q = Some k -> q <> [] /\ q `prefix_of` path_parts key.1.
Proof.
  unfold implies, implied_at. case_bool_decide; [done | discriminate].
Qed.

(** The test of agreement is sound. *)
Lemma no_kind_conflictb_sound files :
  no_kind_conflictb files = true -> no_kind_conflict files.
Proof.
  unfold no_kind_conflictb. rewrite forallb_forall.
  intros Htest e1 e2 q k1 k2 He1 He2 H1 H2.
  apply list_elem_of_In, Htest in He1. rewrite forallb_forall in He1.
  destruct (implies_Some _ _ _ H1) as [_ [rest Hrest]].
  specialize (He1 (length q)).
  rewrite Hrest, take_app_length, <- Hrest in He1.
  rewrite forallb_forall in He1.
  apply list_elem_of_In, He1 in He2.
  - rewrite H1, H2 in He2. by destruct k1, k2.
  - apply in_seq. rewrite Hrest, length_app. lia.
Qed.

Lemma prefix_snoc_lookup (q : list string) a parts :
  (q ++ [a]) `prefix_of` parts ->
  take (length q) parts = q /\ parts !! length q = Some a.
Proof.
  intros [rest ->]. rewrite <- !app_assoc. split.
  - by rewrite take_app_length.
  - by rewrite lookup_app_r, Nat.sub_diag by lia.
Qed.

Lemma no_sibling_tiesb_sound cmp files :
  no_sibling_tiesb cmp files = true -> no_sibling_ties cmp files.
Proof.
  unfold no_sibling_tiesb. rewrite forallb_forall.
  intros Htest e1 e2 q a b He1 He2 Ha Hb Hab.
  apply list_elem_of_In, Htest in He1. rewrite forallb_forall in He1.
  apply list_elem_of_In, He1 in He2. rewrite forallb_forall in He2.
  apply prefix_snoc_lookup in Ha as [Hqa Ha], Hb as [Hqb Hb].
  specialize (He2 (length q)).
  rewrite Ha, Hb, Hqa, Hqb, Hab, bool_decide_eq_true_2 in He2 by done.
  simpl in He2. eapply bool_decide_eq_true_1, He2, in_seq.
  apply lookup_lt_Some in Ha. lia.
Qed.

Lemma no_kind_conflict_perm files files' :
  files ≡ₚ files' -> no_kind_conflict files -> no_kind_conflict files'.
Proof.
  intros Hperm Hagree e1 e2 q k1 k2 H1 H2.
  apply Hagree; by rewrite Hperm.
Qed.

Lemma returned_tree_archive cmp bytes name files r :
  (bytes <= 50 * 1024 * 1024)%Z ->
  build_zip_tree cmp name files = Js.Ok r ->
  returned_tree (extractZipStructure cmp (archive bytes name files))
  = Some (root r).
Proof.
  intros Hbytes Hbuild.
  unfold returned_tree, extractZipStructure, MAX_FILE_SIZE_MB. simpl.
  destruct (bytes >? _)%Z eqn:Hgt; [apply Z.gtb_lt in Hgt; lia |].
  simpl. by rewrite Hbuild.
Qed.

(** Entries that agree on the kinds are merged without failure, and
    the kinds of the merged tree are those they imply. *)
Lemma merge_entries_agreeing name files :
  no_kind_conflict files ->
  exists t,
    merge_entries files (DirNode name "" []) = Js.Ok t /\
    forall_dirs tidy t /\
    node_name t = name /\ node_path t = "" /\
    forall q, kind_at q t
              = match q with
                | [] => Some directory
                | _ :: _ => first_implied q files
                end.
Proof.
  intros Hagree.
  destruct (merge_entries_succeeds files (DirNode name "" []))
    as [t Ht]; [done | done | |].
  { intros [| s q] k key k' Hq Hk; [done |]. by rewrite kind_at_cons in Hk. }
  exists t. split; [done |].
  destruct (merge_entries_same _ _ _ Ht) as (? & ? & _).
  split_and!; try done.
  - eapply merge_entries_tidy; [done |].
    apply forall_dirs_DirNode. repeat constructor.
  - intros q. rewrite (merge_entries_kind_at _ _ _ Ht).
    destruct q as [| s q]; [done |]. by rewrite kind_at_cons.
Qed.

(** C10, as the code has it.  When the entries agree on the kinds (no
    name at a level is implied both as a file and as a directory) and
    no two different names at one level compare equal under
    [localeCompare], the entries taken in any order give the same
    tree after the sort pass: the same nodes, of the same names, kinds
    and paths, in the same order under every directory. *)
Theorem entry_order_irrelevant (localeCompare : string -> string -> Z)
    (bytes : Z) (name : string) (files files' : list (string * ZipObject)) :
  consistent localeCompare ->
  (bytes <= 50 * 1024 * 1024)%Z ->
  files ≡ₚ files' ->
  no_kind_conflict files ->
  no_sibling_ties localeCompare files ->
  exists t t',
    returned_tree
      (extractZipStructure localeCompare (archive bytes name files))
    = Some t /\
    returned_tree
      (extractZipStructure localeCompare (archive bytes name files'))
    = Some t' /\
    shape t = shape t'.
Proof.
  intros Hcmp Hbytes Hperm Hagree Hties.
  pose proof (no_kind_conflict_perm _ _ Hperm Hagree) as Hagree'.
  destruct (merge_entries_agreeing (Js.replace_zip_suffix name) files Hagree)
    as (t & Ht & Htidy & Hname & Hpath & Hkinds).
  destruct (merge_entries_agreeing (Js.replace_zip_suffix name) files' Hagree')
    as (t' & Ht' & Htidy' & Hname' & Hpath' & Hkinds').
  destruct (build_zip_tree_merged localeCompare _ _ _ Ht) as (r & Hr & Hroot).
  destruct (build_zip_tree_merged localeCompare _ _ _ Ht')
    as (r' & Hr' & Hroot').
  exists (root r), (root r').
  split; [by apply returned_tree_archive |].
  split; [by apply returned_tree_archive |].
  rewrite Hroot, Hroot'.
  apply (sorted_shape_ext localeCompare Hcmp); try done; try congruence.
  - intros q. rewrite Hkinds, Hkinds'.
    destruct q; [done |]. by apply first_implied_perm.
  - intros q a b ka kb. rewrite !Hkinds.
    replace (match q ++ [a] with
             | [] => Some directory
             | _ :: _ => first_implied (q ++ [a]) files
             end) with (first_implied (q ++ [a]) files) by (by destruct q).
    replace (match q ++ [b] with
             | [] => Some directory
             | _ :: _ => first_implied (q ++ [b]) files
             end) with (first_implied (q ++ [b]) files) by (by destruct q).
    intros (e1 & He1 & [_ Ha]%implies_Some)%first_implied_Some
           (e2 & He2 & [_ Hb]%implies_Some)%first_implied_Some.
    by apply (Hties e1 e2 q).
Qed.

Lemma entry_order_irrelevant_witness :
  exists t t',
    returned_tree
      (extractZipStructure codepointCompare
         (archive 4096 "site.zip" merge_entries_of_spec))
    = Some t /\
    returned_tree
      (extractZipStructure codepointCompare
         (archive 4096 "site.zip" (rev merge_entries_of_spec)))
    = Some t' /\
    shape t = shape t'.
Proof.
  apply (entry_order_irrelevant codepointCompare 4096 "site.zip"
           merge_entries_of_spec (rev merge_entries_of_spec)).
  - apply codepointCompare_consistent.
  - lia.
  - apply Permutation_rev.
  - apply no_kind_conflictb_sound. vm_compute. reflexivity.
  - apply no_sibling_tiesb_sound. vm_compute. reflexivity.
Defined.

(** C10, as stated, fails: two names that are canonically equivalent
    compare equal, the stable sort leaves them in the order of the
    entries, and the two orders give two trees. *)
Lemma entry_order_shows_on_ties :
  ~ (forall localeCompare bytes name files files',
        consistent localeCompare ->
        (bytes <= 50 * 1024 * 1024)%Z ->
        files ≡ₚ files' ->
        no_kind_conflict files ->
        exists t t',
          returned_tree
            (extractZipStructure localeCompare (archive bytes name files))
          = Some t /\
          returned_tree
            (extractZipStructure localeCompare (archive bytes name files'))
          = Some t' /\
          shape t = shape t').
Proof.
  intros Hclaim.
  destruct (Hclaim canonCompare 4096%Z "names.zip"
              equivalent_names (rev equivalent_names))
    as (t & t' & Ht & Ht' & Hshape).
  - apply canonCompare_consistent.
  - lia.
  - apply Permutation_rev.
  - apply no_kind_conflictb_sound. vm_compute. reflexivity.
  - vm_compute in Ht, Ht'. inversion Ht; inversion Ht'; subst.
    discriminate Hshape.
Qed.

(** * Further properties *)

(** ** The plain rendering and the item count *)

Lemma countItems_DirNode name path cs :
  countItems (DirNode name path cs) = S (list_sum (map countItems cs)).
Proof.
  simpl. f_equal.
  enough (forall acc, fold_left (fun sum child => sum + countItems child) cs acc
                      = acc + list_sum (map countItems cs)) as H by apply H.
  induction cs as [| c cs IH]; intros acc; simpl; [lia |].
  rewrite IH. lia.
Qed.

Lemma countItems_pos t : (1 <= countItems t)%nat.
Proof. destruct t; [rewrite countItems_DirNode | simpl]; lia. Qed.

(** [flatMap] over a list whose callback never throws. *)
Lemma flatMap_result_Ok {A B : Type} (f : A -> nat -> Js.Result (list B))
    (P : A -> list B -> Prop) (l : list A) :
  Forall (fun x => forall i, exists ys, f x i = Js.Ok ys /\ P x ys) l ->
  exists yss,
    flatMap_result f l = Js.Ok (concat yss) /\ Forall2 P l yss.
Proof.
  intros Hl. unfold flatMap_result. generalize 0%nat.
  induction Hl as [| x l Hx _ IH]; intros i.
  - exists []. split; [done | constructor].
  - destruct (Hx i) as (ys & Hys & HP).
    destruct (IH (S i)) as (yss & Hyss & HPs).
    exists (ys :: yss). split; [| by constructor].
    rewrite Hys. simpl. by rewrite Hyss.
Qed.

Lemma Forall2_length_sum {A B : Type} (g : A -> nat) (l : list A)
    (yss : list (list B)) :
  Forall2 (fun x ys => length ys = g x) l yss ->
  length (concat yss) = list_sum (map g l).
Proof.
  induction 1 as [| x ys l yss Hx _ IH]; [done |].
  simpl. rewrite length_app. lia.
Qed.

(** Below the root the renderer never throws and gives one line per
    node. *)
Lemma renderStructure_inner t :
  forall prefix isLast,
  exists lines,
    renderStructure t prefix isLast false = Js.Ok lines /\
    length lines = countItems t.
Proof.
  induction t as [name path cs IH | name path h] using Node_ind_forall;
    intros prefix isLast; [| by eexists].
  rewrite countItems_DirNode.
  destruct cs as [| c cs]; [by eexists |].
  cbn [renderStructure].
  set (children := c :: cs) in *.
  edestruct (flatMap_result_Ok
               (fun child i =>
                  renderStructure child
                    (prefix +:+ (if isLast then "    " else "│   "))
                    (i =? length children - 1)%nat false)
               (fun child ys => length ys = countItems child) children)
    as (yss & Hyss & Hlen).
  { eapply Forall_impl; [exact IH |]. intros child Hchild i. apply Hchild. }
  subst children. rewrite Hyss. eexists. split; [done |].
  simpl length. f_equal. by apply Forall2_length_sum.
Qed.

(** X1.  On a tree whose root is a Directory the plain renderer never
    throws; its first line is the name of the root and a slash, and
    it gives as many lines as [countItems] counts items: one line per
    node. *)
Theorem render_one_line_per_item (name path : string) (cs : list Node)
    (prefix : string) (isLast : bool) :
  exists lines,
    renderStructure (DirNode name path cs) prefix isLast true
    = Js.Ok ((name +:+ "/") :: lines) /\
    length ((name +:+ "/") :: lines) = countItems (DirNode name path cs).
Proof.
  rewrite countItems_DirNode. cbn [renderStructure].
  edestruct (flatMap_result_Ok
               (fun child i =>
                  renderStructure child "    "
                    (i =? length cs - 1)%nat false)
               (fun child ys => length ys = countItems child) cs)
    as (yss & Hyss & Hlen).
  { apply Forall_forall. intros child _ i. apply renderStructure_inner. }
  rewrite Hyss. eexists. split; [done |].
  simpl length. f_equal. by apply Forall2_length_sum.
Qed.

(** ** The shape of the lines *)

Lemma string_app_cons a s t : String a s +:+ t = String a (s +:+ t).
Proof. reflexivity. Qed.

Lemma string_app_assoc s t u : (s +:+ t) +:+ u = s +:+ (t +:+ u).
Proof.
  induction s as [| a s IH]; [done |].
  by rewrite !string_app_cons, IH.
Qed.

Lemma string_app_nil_r s : s +:+ "" = s.
Proof.
  induction s as [| a s IH]; [done |]. by rewrite string_app_cons, IH.
Qed.

Lemma indent_app i j : indent i -> indent j -> indent (i +:+ j).
Proof.
  intros Hi. induction 1 as [| j Hj IH | j Hj IH].
  - by rewrite string_app_nil_r.
  - rewrite <- string_app_assoc. by constructor.
  - rewrite <- string_app_assoc. by constructor.
Qed.

Lemma indent_unit (isLast : bool) :
  indent (if isLast then "    " else "│   ").
Proof.
  destruct isLast;
    [apply (indent_blank "") | apply (indent_bar "")]; constructor.
Qed.

(** A line of a child, seen from its parent. *)
Lemma line_of_child prefix (isLast : bool) name path cs c line :
  c ∈ cs ->
  line_of (prefix +:+ (if isLast then "    " else "│   ")) c line ->
  line_of prefix (DirNode name path cs) line.
Proof.
  intros Hc (i & connector & n & Hi & Hconn & Hn & ->).
  exists ((if isLast then "    " else "│   ") +:+ i), connector, n.
  split_and!; [| done | by econstructor |].
  - apply indent_app; [apply indent_unit | done].
  - by rewrite !string_app_assoc.
Qed.

Lemma Forall2_concat_Forall {A B : Type} (P : A -> B -> Prop)
    (Q : B -> Prop) (l : list A) (yss : list (list B)) :
  Forall2 (fun x ys => Forall (P x) ys) l yss ->
  (forall x y, x ∈ l -> P x y -> Q y) ->
  Forall Q (concat yss).
Proof.
  induction 1 as [| x ys l yss Hx _ IH]; intros HPQ; [constructor |].
  simpl. apply Forall_app. split.
  - eapply Forall_impl; [exact Hx |]. intros y. apply HPQ. by left.
  - apply IH. intros x' y Hx'. apply HPQ. by right.
Qed.

Lemma renderStructure_lines t :
  forall prefix isLast,
  exists lines,
    renderStructure t prefix isLast false = Js.Ok lines /\
    Forall (line_of prefix t) lines.
Proof.
  induction t as [name path cs IH | name path h] using Node_ind_forall;
    intros prefix isLast.
  - assert (line_of prefix (DirNode name path cs)
              (prefix +:+ (if isLast then "└── " else "├── ")
               +:+ name +:+ "/")) as Hline.
    { exists "", (if isLast then "└── " else "├── "), (DirNode name path cs).
      split_and!;
        [apply indent_none | by destruct isLast; [left | right]
        | apply within_here | done]. }
    destruct cs as [| c cs]; [eexists; split; [done | by constructor] |].
    cbn [renderStructure].
    set (children := c :: cs) in *.
    edestruct (flatMap_result_Ok
                 (fun child i =>
                    renderStructure child
                      (prefix +:+ (if isLast then "    " else "│   "))
                      (i =? length children - 1)%nat false)
                 (fun child ys =>
                    Forall (line_of
                              (prefix +:+ (if isLast then "    " else "│   "))
                              child) ys) children)
      as (yss & Hyss & Hlines).
    { eapply Forall_impl; [exact IH |]. intros child Hchild i. apply Hchild. }
    rewrite Hyss. eexists. split; [done |].
    constructor; [exact Hline |].
    eapply Forall2_concat_Forall; [exact Hlines |].
    intros child line Hchild. by apply line_of_child.
  - eexists. split; [done |]. constructor; [| constructor].
    exists "", (if isLast then "└── " else "├── "), (FileNode name path h).
    split_and!;
      [apply indent_none | by destruct isLast; [left | right]
        | apply within_here | done].
Qed.

(** X2.  Every line below the root line is made of the four columns
    of the first level, further units of four columns (blank, or with
    a bar), a connector, and the name of a node of the tree, with a
    slash if it is a Directory. *)
Theorem render_lines_show_nodes (name path : string) (cs : list Node)
    (prefix : string) (isLast : bool) (lines : list string) :
  renderStructure (DirNode name path cs) prefix isLast true = Js.Ok lines ->
  exists below,
    lines = (name +:+ "/") :: below /\
    Forall (line_of "    " (DirNode name path cs)) below.
Proof.
  cbn [renderStructure].
  edestruct (flatMap_result_Ok
               (fun child i =>
                  renderStructure child "    "
                    (i =? length cs - 1)%nat false)
               (fun child ys => Forall (line_of "    " child) ys) cs)
    as (yss & Hyss & Hlines).
  { apply Forall_forall. intros child _ i. apply renderStructure_lines. }
  rewrite Hyss. intros [= <-]. eexists. split; [done |].
  eapply Forall2_concat_Forall; [exact Hlines |].
  intros child line Hchild (i & connector & n & Hi & Hconn & Hn & ->).
  exists i, connector, n. split_and!; try done. by econstructor.
Qed.

Lemma render_lines_show_nodes_witness :
  exists below,
    proj_lines = "proj/" :: below /\
    Forall (line_of "    " (readDirectoryStructure codepointCompare proj ""))
           below.
Proof.
  apply (render_lines_show_nodes "proj" "proj" _ "" true). reflexivity.
Defined.

(** ** Sorting once is enough *)

Lemma sort_of_sorted {A : Type} (cmp : A -> A -> Z) l :
  StronglySorted (le_by cmp) l -> Js.sort cmp l = l.
Proof.
  induction 1 as [| x l Hl IH Hx]; [done |].
  simpl. rewrite IH. destruct Hx as [| y l Hxy _]; [done |].
  simpl. by rewrite (proj2 (Z.leb_le _ _) Hxy).
Qed.

(** A tree every children array of which is sorted is left as it is. *)
Lemma sortStructure_fixed cmp t :
  forall_dirs (fun _ _ cs => StronglySorted (le_by (compareNodes cmp)) cs) t ->
  sortStructure cmp t = t.
Proof.
  induction t as [name path cs IH | name path h] using Node_ind_forall;
    [| done].
  intros [Hsorted Hcs]%forall_dirs_DirNode.
  rewrite sortStructure_DirNode, sort_of_sorted by done. f_equal.
  rewrite <- (map_id cs) at 2. apply map_ext_in. intros c Hc%list_elem_of_In.
  rewrite Forall_forall in IH, Hcs. auto.
Qed.

Lemma sortStructure_sorted cmp t :
  consistent cmp ->
  forall_dirs (fun _ _ cs => StronglySorted (le_by (compareNodes cmp)) cs)
              (sortStructure cmp t).
Proof.
  intros Hcmp.
  induction t as [name path cs IH | name path h] using Node_ind_forall;
    [| done].
  rewrite sortStructure_DirNode, forall_dirs_DirNode. split.
  - to_fmap.
    eapply StronglySorted_fmap; [| by apply sort_compareNodes_sorted].
    intros a b. unfold le_by, compareNodes.
    by rewrite !sortStructure_name, !sortStructure_type.
  - rewrite Forall_forall in IH |- *. intros c Hc.
    apply list_elem_of_fmap in Hc as (c' & -> & Hc').
    apply elem_of_sort in Hc'. auto.
Qed.

(** X3.  With a consistent [localeCompare] the sort pass is
    idempotent, and it leaves the tree of the directory builder as it
    is: both builders return trees in the one sorted form. *)
Theorem sort_pass_idempotent (localeCompare : string -> string -> Z) :
  consistent localeCompare ->
  (forall t,
      sortStructure localeCompare (sortStructure localeCompare t)
      = sortStructure localeCompare t) /\
  (forall entry currentPath,
      sortStructure localeCompare
        (readDirectoryStructure localeCompare entry currentPath)
      = readDirectoryStructure localeCompare entry currentPath).
Proof.
  intros Hcmp. split.
  - intros t. by apply sortStructure_fixed, sortStructure_sorted.
  - intros entry currentPath. apply sortStructure_fixed.
    apply readDirectoryStructure_forall_dirs. intros.
    by apply sort_compareNodes_sorted.
Qed.

Lemma sort_pass_idempotent_witness :
  sortStructure codepointCompare
    (sortStructure codepointCompare
       (DirNode "r" "" [FileNode "b" "/b" (zipEntry (mkZipObject "b" false));
                        DirNode "a" "/a" []]))
  = sortStructure codepointCompare
      (DirNode "r" "" [FileNode "b" "/b" (zipEntry (mkZipObject "b" false));
                       DirNode "a" "/a" []]).
Proof.
  apply (proj1 (sort_pass_idempotent codepointCompare
                  codepointCompare_consistent)).
Defined.

(** ** What the sort pass keeps *)

Lemma list_sum_perm (l l' : list nat) : l ≡ₚ l' -> list_sum l = list_sum l'.
Proof. induction 1; simpl; lia. Qed.

Lemma concat_map_pointwise {A B : Type} (f g : A -> list B) (l : list A) :
  (forall x, x ∈ l -> f x ≡ₚ g x) -> concat (map f l) ≡ₚ concat (map g l).
Proof.
  induction l as [| x l IH]; intros Hfg; simpl; [done |].
  apply Permutation_app; [apply Hfg; by left |].
  apply IH. intros z Hz. apply Hfg. by right.
Qed.

Lemma concat_map_permuted {A B : Type} (g : A -> list B) (l l' : list A) :
  l ≡ₚ l' -> concat (map g l) ≡ₚ concat (map g l').
Proof.
  induction 1 as [| x l l' _ IH | x y l | l l' l'' _ IH1 _ IH2]; simpl.
  - done.
  - by apply Permutation_app_head.
  - rewrite !app_assoc. apply Permutation_app_tail, Permutation_app_comm.
  - by etransitivity.
Qed.

(** X4.  The sort pass keeps the number of items and, up to their
    order, the paths of the folders: the expansion state computed
    from the sorted tree is that of the tree as built. *)
Theorem sort_pass_keeps (localeCompare : string -> string -> Z) (t : Node) :
  countItems (sortStructure localeCompare t) = countItems t /\
  getAllFolderPaths (sortStructure localeCompare t) ≡ₚ getAllFolderPaths t.
Proof.
  induction t as [name path cs IH | name path h] using Node_ind_forall;
    [| done].
  rewrite sortStructure_DirNode, !countItems_DirNode,
    !getAllFolderPaths_DirNode, !map_map.
  rewrite Forall_forall in IH. split.
  - f_equal. transitivity
      (list_sum (map countItems (Js.sort (compareNodes localeCompare) cs))).
    + f_equal. apply map_ext_in. intros c Hc%list_elem_of_In%elem_of_sort.
      by apply IH.
    + apply list_sum_perm. to_fmap. by rewrite sort_perm.
  - apply perm_skip. etransitivity.
    + apply concat_map_pointwise.
      intros c Hc%elem_of_sort. by apply IH.
    + apply concat_map_permuted, sort_perm.
Qed.

(** ** The expansion state *)

(** X5.  [toggleFolder] flips whether its path is in the set and
    touches no other path; toggling twice gives the set back. *)
Theorem toggleFolder_flips (path : string) (prev : gset string) :
  (path ∈ FolderStructure.toggleFolder path prev <-> path ∉ prev) /\
  (forall other, other <> path ->
     (other ∈ FolderStructure.toggleFolder path prev <-> other ∈ prev)) /\
  FolderStructure.toggleFolder path (FolderStructure.toggleFolder path prev)
  = prev.
Proof.
  unfold FolderStructure.toggleFolder.
  destruct (decide (path ∈ prev)) as [Hin | Hout].
  - rewrite (bool_decide_eq_true_2 (path ∈ prev)) by done.
    split_and!.
    + rewrite elem_of_difference, elem_of_singleton. tauto.
    + intros other Hother.
      rewrite elem_of_difference, elem_of_singleton. tauto.
    + rewrite bool_decide_eq_false_2
        by (rewrite elem_of_difference, elem_of_singleton; tauto).
      apply set_eq. intros x.
      rewrite elem_of_union, elem_of_difference, !elem_of_singleton.
      destruct (decide (x = path)) as [-> | Hx]; tauto.
  - rewrite (bool_decide_eq_false_2 (path ∈ prev)) by done.
    split_and!.
    + rewrite elem_of_union, elem_of_singleton. tauto.
    + intros other Hother.
      rewrite elem_of_union, elem_of_singleton. tauto.
    + rewrite bool_decide_eq_true_2
        by (rewrite elem_of_union, elem_of_singleton; tauto).
      apply set_eq. intros x.
      rewrite elem_of_difference, elem_of_union, !elem_of_singleton.
      destruct (decide (x = path)) as [-> | Hx]; tauto.
Qed.

Lemma root_path_listed t :
  node_type t = directory -> node_path t ∈ getAllFolderPaths t.
Proof.
  destruct t as [name path cs | ? ? ?]; [| done]. intros _.
  rewrite getAllFolderPaths_DirNode. by left.
Qed.

Lemma all_expanded_after_expand t :
  node_type t = directory ->
  areAllFoldersExpanded (Some t) (list_to_set (getAllFolderPaths t)) = true.
Proof.
  intros Ht. apply areAllFoldersExpanded_Some. split; [done |].
  intros p Hp. by apply elem_of_list_to_set.
Qed.

Lemma not_all_expanded_when_collapsed t :
  areAllFoldersExpanded (Some t) ∅ = false.
Proof.
  destruct (areAllFoldersExpanded (Some t) ∅) eqn:Hall; [| done].
  apply areAllFoldersExpanded_Some in Hall as [Ht Hall].
  by apply root_path_listed, Hall in Ht.
Qed.

(** X6.  On a tree whose root is a Directory [toggleExpandAll]
    touches the expansion state alone: from fully expanded it empties
    the set, so that every folder is collapsed, and from anything else
    it makes the set the folder paths of the tree, all of them and no
    other path.  So "all folders expanded" turns into its opposite. *)
Theorem toggleExpandAll_toggles (st : App.State) (s : Structure) :
  App.structure st = Some s ->
  node_type (structure_node s) = directory ->
  App.structure (FolderStructure.toggleExpandAll st) = Some s /\
  App.error (FolderStructure.toggleExpandAll st) = App.error st /\
  App.isLoading (FolderStructure.toggleExpandAll st) = App.isLoading st /\
  (areAllFoldersExpanded (Some (structure_node s)) (App.expandedFolders st)
   = true ->
   App.expandedFolders (FolderStructure.toggleExpandAll st) = ∅) /\
  (areAllFoldersExpanded (Some (structure_node s)) (App.expandedFolders st)
   = false ->
   forall p,
     p ∈ App.expandedFolders (FolderStructure.toggleExpandAll st) <->
     p ∈ getAllFolderPaths (structure_node s)) /\
  areAllFoldersExpanded (Some (structure_node s))
    (App.expandedFolders (FolderStructure.toggleExpandAll st))
  = negb (areAllFoldersExpanded (Some (structure_node s))
            (App.expandedFolders st)).
Proof.
  intros Hs Ht. unfold FolderStructure.toggleExpandAll. rewrite Hs.
  destruct (areAllFoldersExpanded _ (App.expandedFolders st)); simpl.
  - split_and!; try done. apply not_all_expanded_when_collapsed.
  - split_and!; try done.
    + intros _ p. apply elem_of_list_to_set.
    + by apply all_expanded_after_expand.
Qed.

Lemma toggleExpandAll_toggles_witness :
  (forall p,
     p ∈ App.expandedFolders
           (FolderStructure.toggleExpandAll
              (App.mkState
                 (Some (DirectoryTree
                          (readDirectoryStructure codepointCompare proj "")))
                 None {["proj"]} false)) <->
     p ∈ ["proj"; "proj/src"; "proj/src/utils"]) /\
  App.expandedFolders
    (FolderStructure.toggleExpandAll
       (App.mkState
          (Some (DirectoryTree
                   (readDirectoryStructure codepointCompare proj "")))
          None (list_to_set ["proj"; "proj/src"; "proj/src/utils"]) false))
  = ∅.
Proof.
  split.
  - exact (proj1 (proj2 (proj2 (proj2 (proj2
             (toggleExpandAll_toggles
                (App.mkState
                   (Some (DirectoryTree
                            (readDirectoryStructure codepointCompare proj
                               "")))
                   None {["proj"]} false)
                (DirectoryTree
                   (readDirectoryStructure codepointCompare proj ""))
                eq_refl eq_refl))))) eq_refl).
  - exact (proj1 (proj2 (proj2 (proj2
             (toggleExpandAll_toggles
                (App.mkState
                   (Some (DirectoryTree
                            (readDirectoryStructure codepointCompare proj
                               "")))
                   None (list_to_set ["proj"; "proj/src"; "proj/src/utils"])
                   false)
                (DirectoryTree
                   (readDirectoryStructure codepointCompare proj ""))
                eq_refl eq_refl)))) eq_refl).
Defined.

(** ** A drop *)

(** The tree of a drop has a Directory root. *)
Lemma dropped_structure_directory cmp items s :
  dropped_structure cmp items = Js.Ok s ->
  node_type (structure_node s) = directory.
Proof.
  unfold dropped_structure.
  destruct items as [| item items]; [done |].
  destruct (webkitGetAsEntry item) as [[[f | d] |] |]; try done;
    try (intros [= <-]; apply readDirectoryStructure_directory);
    (destruct (String.eqb (kind item) "file"); [| done]);
    (destruct (getAsFile item) as [dropped |]; [| done]);
    (destruct (test_zip_suffix (file_name dropped)); [| done]);
    (destruct (extractZipStructure cmp dropped) as [events [r | e]] eqn:Hex;
     [| done]);
    intros [= <-];
    by apply extractZipStructure_directory in Hex as [? _].
Qed.

(** X7.  However a drop goes, [handleDrop] of the text view leaves
    [isLoading] false and the state in one of two forms: a tree, no
    error and every folder of the tree expanded; or no tree, the
    message of the failure in both [error] and [currentError], and
    the expansion state as it was. *)
Theorem text_drop_outcome (localeCompare : string -> string -> Z)
    (items : list DataTransferItem) (st : App.State * option string) :
  let st' := TextFolderStructure.handleDrop localeCompare items st in
  App.isLoading st'.1 = false /\
  ((exists s,
       App.structure st'.1 = Some s /\ App.error st'.1 = None /\
       st'.2 = None /\
       areAllFoldersExpanded (Some (structure_node s))
         (App.expandedFolders st'.1) = true) \/
   (exists msg,
       App.structure st'.1 = None /\ App.error st'.1 = Some msg /\
       st'.2 = Some msg /\
       App.expandedFolders st'.1 = App.expandedFolders st.1)).
Proof.
  unfold TextFolderStructure.handleDrop.
  destruct (dropped_structure localeCompare items) as [s | err] eqn:Hdrop;
    simpl; (split; [done |]).
  - left. exists s. split_and!; try done.
    by eapply all_expanded_after_expand, dropped_structure_directory.
  - right. by exists (Js.message err).
Qed.

(** ** The names and the paths of an archive tree *)

Lemma split_slash_free s :
  Forall (fun piece => slash_free piece = true) (Js.split "/"%char s).
Proof.
  induction s as [| c rest IH]; simpl; [by repeat constructor |].
  destruct (Ascii.eqb c "/"%char) eqn:Hc; [by constructor |].
  destruct (Js.split "/"%char rest) as [| piece pieces].
  - repeat constructor. simpl. by rewrite Hc.
  - inversion IH; subst. constructor; [| done]. simpl. by rewrite Hc.
Qed.

Lemma path_parts_segments relativePath :
  Forall (fun part => is_segment part = true) (path_parts relativePath).
Proof.
  unfold path_parts. apply Forall_forall. intros part Hin.
  apply list_elem_of_filter in Hin as [Hlen Hin].
  unfold is_segment. rewrite Hlen. simpl.
  by apply (proj1 (Forall_forall _ _) (split_slash_free relativePath)).
Qed.

Lemma string_app_inv_head p a b : p +:+ a = p +:+ b -> a = b.
Proof.
  induction p as [| c p IH]; [done |].
  rewrite !string_app_cons. intros [= H]. auto.
Qed.

Lemma path_of_cons s q : path_of (s :: q) = String "/" (s +:+ path_of q).
Proof. reflexivity. Qed.

Lemma path_of_head q :
  path_of q = "" \/ exists rest, path_of q = String "/" rest.
Proof. destruct q; [by left | right; by eexists]. Qed.

Lemma segment_split s :
  forall s' r r',
    slash_free s = true -> slash_free s' = true ->
    (r = "" \/ exists x, r = String "/" x) ->
    (r' = "" \/ exists x, r' = String "/" x) ->
    s +:+ r = s' +:+ r' -> s = s' /\ r = r'.
Proof.
  induction s as [| c s IH]; intros [| c' s'] r r' Hs Hs' Hr Hr'.
  - done.
  - change ("" +:+ r) with r. rewrite string_app_cons. intros ->.
    destruct Hr as [? | [x [= -> _]]]; [done |]. by simpl in Hs'.
  - change ("" +:+ r') with r'. rewrite string_app_cons. intros <-.
    destruct Hr' as [? | [x [= -> _]]]; [done |]. by simpl in Hs.
  - rewrite !string_app_cons. intros [= -> Heq].
    simpl in Hs, Hs'. apply andb_true_iff in Hs as [_ Hs].
    apply andb_true_iff in Hs' as [_ Hs'].
    destruct (IH s' r r' Hs Hs' Hr Hr' Heq) as [-> ->]. done.
Qed.

Lemma path_of_inj q :
  forall q',
    Forall (fun s => is_segment s = true) q ->
    Forall (fun s => is_segment s = true) q' ->
    path_of q = path_of q' -> q = q'.
Proof.
  induction q as [| s q IH]; intros [| s' q'] Hq Hq'; try done.
  rewrite !path_of_cons. intros [= Heq].
  inversion Hq as [| ? ? Hs Hq1]; inversion Hq' as [| ? ? Hs' Hq1']; subst.
  unfold is_segment in Hs, Hs'.
  apply andb_true_iff in Hs as [_ Hs]. apply andb_true_iff in Hs' as [_ Hs'].
  destruct (segment_split s s' _ _ Hs Hs' (path_of_head q) (path_of_head q')
              Heq) as [-> Hrest].
  f_equal. by apply IH.
Qed.

(** Every node of a tidy tree is reached by the names on the way to
    it. *)
Lemma within_position t d :
  forall_dirs tidy t -> forall_dirs neat t -> within d t ->
  exists q,
    Forall (fun s => is_segment s = true) q /\ lookup_path q t = Some d.
Proof.
  intros Ht Hn Hin.
  induction Hin as [t | d c name path cs Hc Hin IH]; [by exists [] |].
  apply forall_dirs_DirNode in Ht as [[Hnames _] Hcs].
  apply forall_dirs_DirNode in Hn as [Hseg Hncs]. unfold neat in Hseg.
  rewrite Forall_forall in Hcs, Hncs, Hseg.
  destruct IH as (q & Hq & Hlook); [by apply Hcs | by apply Hncs |].
  destruct (find_unique _ _ Hnames Hc) as [k Hfind].
  exists (node_name c :: q). split; [constructor; auto |].
  simpl. by rewrite Hfind.
Qed.

(** The path of a node of a tidy tree spells the names on the way to
    it. *)
Lemma lookup_path_path q :
  forall t d,
    forall_dirs tidy t -> lookup_path q t = Some d ->
    node_path d = node_path t +:+ path_of q.
Proof.
  induction q as [| s q IH]; intros t d Ht Hlook.
  - inversion Hlook; subst. simpl. by rewrite string_app_nil_r.
  - destruct t as [name path cs | ? ? ?]; [| done]. simpl in Hlook.
    destruct (list_find _ cs) as [[k c] |] eqn:Hfind; [| done].
    apply list_find_name_Some in Hfind as [Hk Hname].
    apply forall_dirs_DirNode in Ht as [[_ Hpaths] Hcs].
    rewrite (IH c d); [| by eapply (Forall_lookup_1 _ _ _ _ Hcs) | done].
    rewrite (Forall_lookup_1 _ _ _ _ Hpaths Hk), Hname. simpl.
    change (path_of (s :: q)) with ("/" +:+ s +:+ path_of q).
    by rewrite !string_app_assoc.
Qed.

Lemma paths_unique t d d' :
  forall_dirs tidy t -> forall_dirs neat t ->
  within d t -> within d' t -> node_path d = node_path d' -> d = d'.
Proof.
  intros Ht Hn Hd Hd' Hpath.
  destruct (within_position _ _ Ht Hn Hd) as (q & Hq & Hlook).
  destruct (within_position _ _ Ht Hn Hd') as (q' & Hq' & Hlook').
  rewrite (lookup_path_path _ _ _ Ht Hlook),
    (lookup_path_path _ _ _ Ht Hlook') in Hpath.
  apply string_app_inv_head, path_of_inj in Hpath; [| done | done].
  subst q'. congruence.
Qed.

Lemma merge_parts_neat entry parts :
  forall t t',
    Forall (fun s => is_segment s = true) parts ->
    merge_parts entry parts t = Js.Ok t' ->
    forall_dirs neat t -> forall_dirs neat t'.
Proof.
  induction parts as [| part rest IH]; intros t t' Hparts Hmerge Ht;
    [by inversion Hmerge; subst |].
  inversion Hparts as [| ? ? Hpart Hrest_seg]; subst.
  apply merge_parts_cons_Ok in Hmerge
    as (cname & cpath & cs & -> & [(k & ex & ex' & Hfind & Hrest & ->) |
                                   (child' & Hfind & Hrest & ->)]);
    apply forall_dirs_DirNode in Ht as [Hseg Hcs];
    apply forall_dirs_DirNode; unfold neat in Hseg |- *;
    destruct (merge_parts_same _ _ _ _ Hrest) as (Hname & _ & _).
  - apply list_find_name_Some in Hfind as [Hk Hex].
    split.
    + apply Forall_insert; [done |]. rewrite Hname.
      by eapply (Forall_lookup_1 _ _ _ _ Hseg).
    + apply Forall_insert; [done |]. eapply IH; [done | done |].
      by eapply (Forall_lookup_1 _ _ _ _ Hcs).
  - destruct (new_child_same entry cpath part rest) as [Hname0 _].
    split.
    + apply Forall_app. split; [done |]. constructor; [| done]. congruence.
    + apply Forall_app. split; [done |]. constructor; [| done].
      eapply IH; [done | done |]. unfold new_child.
      destruct (_ || _); [| done]. apply forall_dirs_DirNode.
      repeat constructor.
Qed.

Lemma merge_entries_neat files :
  forall t t',
    merge_entries files t = Js.Ok t' ->
    forall_dirs neat t -> forall_dirs neat t'.
Proof.
  induction files as [| key files IH]; intros t t' Hmerge Ht;
    [by inversion Hmerge; subst |].
  simpl in Hmerge. apply bind_Ok in Hmerge as (t1 & H1 & Hrest).
  eapply IH; [done |].
  eapply merge_parts_neat; [apply path_parts_segments | done | done].
Qed.

Lemma neat_sorted cmp name path cs :
  neat name path cs ->
  neat name path (map (sortStructure cmp) (Js.sort (compareNodes cmp) cs)).
Proof.
  unfold neat. rewrite !Forall_forall.
  intros Hcs c (c' & -> & Hc'%elem_of_sort)%list_elem_of_fmap.
  rewrite sortStructure_name. auto.
Qed.

Lemma extractZipStructure_neat cmp file events r :
  extractZipStructure cmp file = (events, Js.Ok r) ->
  forall_dirs neat (root r).
Proof.
  intros (files & _ & Hbuild)%extractZipStructure_Ok.
  apply build_zip_tree_Ok in Hbuild as (t & Hmerge & ->).
  apply sortStructure_forall_dirs; [intros; by apply neat_sorted |].
  eapply merge_entries_neat; [done |].
  apply forall_dirs_DirNode. repeat constructor.
Qed.

(** X8.  In the tree of an archive every node is reached from the
    root by the names on the way to it, each of them a segment (not
    empty, without a slash); its path is those names, each after a
    slash; and no two nodes have the same path. *)
Theorem archive_paths (localeCompare : string -> string -> Z)
    (file : DroppedFile) (events : list Event) (r : ZipRoot) :
  extractZipStructure localeCompare file = (events, Js.Ok r) ->
  (forall d, within d (root r) ->
     exists q,
       Forall (fun s => is_segment s = true) q /\
       lookup_path q (root r) = Some d /\ node_path d = path_of q) /\
  (forall d d', within d (root r) -> within d' (root r) ->
     node_path d = node_path d' -> d = d').
Proof.
  intros Hex.
  pose proof (extractZipStructure_tidy _ _ _ _ Hex) as Ht.
  pose proof (extractZipStructure_neat _ _ _ _ Hex) as Hn.
  apply extractZipStructure_directory in Hex as [_ Hroot].
  split.
  - intros d Hd.
    destruct (within_position _ _ Ht Hn Hd) as (q & Hq & Hlook).
    exists q. split_and!; [done | done |].
    by rewrite (lookup_path_path _ _ _ Ht Hlook), Hroot.
  - intros d d'. by apply paths_unique.
Qed.

Lemma archive_paths_witness :
  exists q,
    Forall (fun s => is_segment s = true) q /\
    lookup_path q (root site_root) = Some d_txt /\
    node_path d_txt = path_of q.
Proof.
  apply (proj1 (archive_paths codepointCompare site [LoadAsync site]
                  site_root eq_refl) d_txt).
  eapply within_child; [left |].
  eapply within_child; [left |].
  eapply within_child; [left | apply within_here].
Defined.

(** ** The nodes of an archive tree *)

(** The sort pass moves no node to another position. *)
Lemma lookup_path_sortStructure cmp q :
  forall t,
    forall_dirs tidy t ->
    lookup_path q (sortStructure cmp t)
    = sortStructure cmp <$> lookup_path q t.
Proof.
  induction q as [| s q IH]; intros t Ht; [done |].
  destruct t as [name path cs | ? ? ?]; [| done].
  rewrite sortStructure_DirNode. simpl.
  apply forall_dirs_DirNode in Ht as [Htidy Hcs].
  pose proof (tidy_sorted cmp _ _ _ Htidy) as [Hnames' _].
  destruct (list_find _ cs) as [[k c] |] eqn:Hfind.
  - apply list_find_name_Some in Hfind as [Hk Hname].
    assert (Hin : sortStructure cmp c
                  ∈ map (sortStructure cmp) (Js.sort (compareNodes cmp) cs)).
    { to_fmap. apply list_elem_of_fmap. exists c. split; [done |].
      apply elem_of_sort. by eapply list_elem_of_lookup_2. }
    destruct (find_unique _ _ Hnames' Hin) as [k' Hfind'].
    rewrite sortStructure_name, Hname in Hfind'. rewrite Hfind'.
    apply IH. by eapply (Forall_lookup_1 _ _ _ _ Hcs).
  - apply list_find_name_None in Hfind.
    destruct (list_find _ (map _ _)) as [[k' c'] |] eqn:Hfind'; [| done].
    apply list_find_name_Some in Hfind' as [Hk' Hname'].
    apply list_elem_of_lookup_2, list_elem_of_fmap in Hk'
      as (c0 & -> & Hc0%elem_of_sort).
    rewrite sortStructure_name in Hname'.
    exfalso. apply Hfind. to_fmap. apply list_elem_of_fmap. by exists c0.
Qed.

Lemma kind_at_sortStructure cmp q t :
  forall_dirs tidy t -> kind_at q (sortStructure cmp t) = kind_at q t.
Proof.
  intros Ht. unfold kind_at. rewrite lookup_path_sortStructure by done.
  destruct (lookup_path q t); [| done]. simpl. by rewrite sortStructure_type.
Qed.

Lemma first_implied_is_Some q files :
  is_Some (first_implied q files) <->
  q <> [] /\ exists key, key ∈ files /\ q `prefix_of` path_parts key.1.
Proof.
  induction files as [| key files IH]; simpl.
  - split; [by intros [? ?] | by intros (_ & ? & ?%elem_of_nil & _)].
  - unfold implies at 1, implied_at. case_bool_decide as Hq.
    + split; [| by eexists]. intros _. destruct Hq as [Hne Hpre].
      split; [done |]. exists key. split; [by left | done].
    + rewrite IH. split.
      * intros (Hne & key' & Hin & Hpre). split; [done |].
        exists key'. split; [by right | done].
      * intros (Hne & key' & Hin & Hpre). split; [done |].
        apply elem_of_cons in Hin as [-> | Hin]; [by destruct Hq |].
        by exists key'.
Qed.

(** X9.  The tree of an archive has exactly the nodes its entries
    lead to, each of the kind that the first entry to lead there
    implies: below the root there is a node at the names [q] if and
    only if [q] is the beginning of the segments of some entry. *)
Theorem archive_nodes (localeCompare : string -> string -> Z)
    (file : DroppedFile) (events : list Event) (r : ZipRoot) :
  extractZipStructure localeCompare file = (events, Js.Ok r) ->
  exists files,
    decoded file = inr files /\
    (forall q, q <> [] -> kind_at q (root r) = first_implied q files) /\
    (forall q, q <> [] ->
       (is_Some (lookup_path q (root r)) <->
        exists key, key ∈ files /\ q `prefix_of` path_parts key.1)).
Proof.
  intros (files & Hdecoded & Hbuild)%extractZipStructure_Ok.
  exists files. split; [done |].
  apply build_zip_tree_Ok in Hbuild as (t & Hmerge & Hroot).
  assert (Hkinds : forall q, q <> [] ->
                     kind_at q (root r) = first_implied q files).
  { intros q Hq. rewrite Hroot, kind_at_sortStructure.
    - rewrite (merge_entries_kind_at _ _ _ Hmerge).
      destruct q as [| s q]; [done |]. by rewrite kind_at_cons.
    - eapply merge_entries_tidy; [done |].
      apply forall_dirs_DirNode. repeat constructor. }
  split; [done |]. intros q Hq.
  transitivity (is_Some (kind_at q (root r))).
  - unfold kind_at. by rewrite fmap_is_Some.
  - rewrite Hkinds, first_implied_is_Some by done. tauto.
Qed.

Lemma archive_nodes_witness :
  exists files,
    decoded site = inr files /\
    (forall q, q <> [] -> kind_at q (root site_root) = first_implied q files) /\
    (forall q, q <> [] ->
       (is_Some (lookup_path q (root site_root)) <->
        exists key, key ∈ files /\ q `prefix_of` path_parts key.1)).
Proof.
  exact (archive_nodes codepointCompare site [LoadAsync site] site_root
           eq_refl).
Defined.

(** ** When the archive builder fails *)

Lemma merge_parts_Throw entry parts :
  forall t e,
    merge_parts entry parts t = Js.Throw e -> e = Js.TypeError_undefined "find".
Proof.
  induction parts as [| part rest IH]; intros t e; [done |].
  destruct t as [cname cpath cs | ? ? ?]; [| by intros [= <-]].
  rewrite merge_parts_cons.
  destruct (list_find _ cs) as [[k ex] |].
  - destruct (merge_parts entry rest ex) eqn:Hrest; [done |].
    intros [= <-]. eauto.
  - destruct (merge_parts entry rest (new_child _ _ _ _)) eqn:Hrest; [done |].
    intros [= <-]. eauto.
Qed.

(** A File node before the last segment stops the walk. *)
Lemma merge_parts_fails entry parts :
  forall t q,
    q <> [] -> q `prefix_of` parts -> q <> parts ->
    kind_at q t = Some file ->
    merge_parts entry parts t = Js.Throw (Js.TypeError_undefined "find").
Proof.
  induction parts as [| part rest IH]; intros t q Hq Hpre Hne Hkind.
  { by apply prefix_nil_inv in Hpre. }
  destruct t as [cname cpath cs | ? ? ?]; [| done].
  destruct q as [| s q]; [done |].
  assert (s = part /\ q `prefix_of` rest) as [-> Hpre'].
  { destruct Hpre as [k Hk]. simpl in Hk. inversion Hk; subst.
    split; [done | by eexists]. }
  rewrite kind_at_cons in Hkind. rewrite merge_parts_cons.
  destruct (list_find _ cs) as [[k ex] |]; [| done].
  destruct q as [| s q].
  - rewrite kind_at_nil in Hkind.
    destruct ex as [? ? ? | ? ? ?]; [done |].
    destruct rest as [| part' rest]; [done |]. done.
  - rewrite (IH ex (s :: q)); [done | done | done | congruence | done].
Qed.

Lemma merge_entries_blocked files :
  forall t,
    (exists key q,
        key ∈ files /\ q <> [] /\ q `prefix_of` path_parts key.1 /\
        q <> path_parts key.1 /\
        match kind_at q t with
        | Some k => Some k
        | None => first_implied q files
        end = Some file) ->
    merge_entries files t = Js.Throw (Js.TypeError_undefined "find").
Proof.
  induction files as [| key0 files IH];
    intros t (key & q & Hin & Hq & Hpre & Hne & Hkind).
  { by apply elem_of_nil in Hin. }
  simpl.
  destruct (merge_parts key0.2 (path_parts key0.1) t) as [t1 | e] eqn:H1.
  - simpl. apply IH.
    pose proof (merge_parts_kind_at _ _ _ _ H1 q) as Hk1.
    apply elem_of_cons in Hin as [-> | Hin].
    + exfalso.
      assert (kind_at q t = Some file) as Hfile.
      { destruct (kind_at q t); [done |]. simpl in Hkind.
        unfold implies in Hkind.
        by rewrite (implied_at_proper _ _ _ Hq Hpre Hne) in Hkind. }
      by rewrite (merge_parts_fails _ _ _ _ Hq Hpre Hne Hfile) in H1.
    + exists key, q. split_and!; try done.
      rewrite Hk1. destruct (kind_at q t); [done |].
      simpl in Hkind. unfold implies in Hkind.
      by destruct (implied_at key0.2 (path_parts key0.1) q).
  - simpl. f_equal. by eapply merge_parts_Throw.
Qed.

Lemma merge_entries_unblocked files :
  forall t,
    node_type t = directory ->
    (forall key q,
        key ∈ files -> q <> [] -> q `prefix_of` path_parts key.1 ->
        q <> path_parts key.1 ->
        match kind_at q t with
        | Some k => Some k
        | None => first_implied q files
        end <> Some file) ->
    exists t', merge_entries files t = Js.Ok t'.
Proof.
  induction files as [| key0 files IH]; intros t Ht Hfree; [by eexists |].
  simpl.
  destruct (merge_parts_succeeds key0.2 (path_parts key0.1) t) as [t1 H1].
  { by right. }
  { intros q Hq Hpre Hne Hfile.
    apply (Hfree key0 q); [by left | done | done | done |].
    by rewrite Hfile. }
  rewrite H1. simpl. apply IH.
  - apply merge_parts_same in H1 as (_ & _ & ->). done.
  - intros key q Hin Hq Hpre Hne.
    assert (Hin' : key ∈ key0 :: files) by (by right).
    specialize (Hfree key q Hin' Hq Hpre Hne).
    rewrite (merge_parts_kind_at _ _ _ _ H1).
    destruct (kind_at q t); [done |].
    simpl in Hfree. unfold implies in Hfree.
    by destruct (implied_at key0.2 (path_parts key0.1) q).
Qed.

Lemma forEach_entry_Throw files st e :
  merge_entries files st.1 = Js.Throw e -> forEach_entry files st = Js.Throw e.
Proof.
  rewrite <- forEach_entry_tree.
  destruct (forEach_entry files st) as [[t fm] | e']; simpl; congruence.
Qed.

(** X10.  Once the archive is decoded, [extractZipStructure] fails in
    one case only, and then with the [TypeError] of [find]: an entry
    leads through a name that an entry before it made a File node.
    In every other case it returns a tree. *)
Theorem archive_outcome (localeCompare : string -> string -> Z)
    (file : DroppedFile) (files : list (string * ZipObject)) :
  (file_size file <= MAX_FILE_SIZE_MB * 1024 * 1024)%Z ->
  decoded file = inr files ->
  (blocked files ->
   (extractZipStructure localeCompare file).2
   = Js.Throw
       (Js.mkError
          "Failed to process ZIP: Cannot read properties of undefined (reading 'find')"))
  /\
  (~ blocked files ->
   exists r, (extractZipStructure localeCompare file).2 = Js.Ok r).
Proof.
  intros Hsize Hdecoded. unfold extractZipStructure.
  destruct (file_size file >? _)%Z eqn:Hlimit; [lia |].
  rewrite Hdecoded. simpl. unfold build_zip_tree. split.
  - intros (key & q & Hin & Hq & Hpre & Hne & Hfile).
    rewrite (forEach_entry_Throw files _ (Js.TypeError_undefined "find"));
      [done |].
    apply merge_entries_blocked. exists key, q. split_and!; try done.
    destruct q as [| s q]; [done |]. simpl fst. by rewrite kind_at_cons.
  - intros Hfree.
    destruct (merge_entries_unblocked files
                (DirNode (Js.replace_zip_suffix (file_name file)) "" []))
      as [t Hmerge]; [done | |].
    + intros key q Hin Hq Hpre Hne Hfile. apply Hfree.
      exists key, q. split_and!; try done.
      destruct q as [| s q]; [done |]. by rewrite kind_at_cons in Hfile.
    + destruct (build_zip_tree_merged localeCompare _ _ _ Hmerge)
        as (r & Hbuild & _).
      unfold build_zip_tree in Hbuild. rewrite Hbuild. by exists r.
Qed.

Lemma archive_outcome_witness :
  (extractZipStructure codepointCompare
     (archive 1 "a.zip" file_then_folder)).2
  = Js.Throw
      (Js.mkError
         "Failed to process ZIP: Cannot read properties of undefined (reading 'find')").
Proof.
  assert (Hsize : (file_size (archive 1 "a.zip" file_then_folder)
                   <= MAX_FILE_SIZE_MB * 1024 * 1024)%Z)
    by (unfold MAX_FILE_SIZE_MB; simpl; lia).
  apply (proj1 (archive_outcome codepointCompare
                  (archive 1 "a.zip" file_then_folder) file_then_folder
                  Hsize eq_refl)).
  exists (zip_entry "a/b" false), ["a"].
  split_and!.
  - right. left.
  - discriminate.
  - exists ["b"]. vm_compute. reflexivity.
  - vm_compute. discriminate.
  - vm_compute. reflexivity.
Defined.

(** ** The index of the File nodes *)

Lemma file_nodes_DirNode name path cs :
  file_nodes (DirNode name path cs) = concat (map file_nodes cs).
Proof. simpl. apply flat_map_concat_map. Qed.

Lemma file_nodes_within n t :
  n ∈ file_nodes t <-> within n t /\ node_type n = file.
Proof.
  induction t as [name path cs IH | name path h] using Node_ind_forall.
  - rewrite file_nodes_DirNode, within_DirNode, list_elem_of_In, in_concat.
    rewrite Forall_forall in IH. split.
    + intros (l & (c & <- & Hc%list_elem_of_In)%in_map_iff
                & Hn%list_elem_of_In).
      apply IH in Hn as [Hn Hfile]; [| done]. split; [| done].
      right. by exists c.
    + intros [[-> | (c & Hc & Hn)] Hfile]; [done |].
      exists (file_nodes c). split.
      * apply in_map, list_elem_of_In, Hc.
      * apply list_elem_of_In, IH; done.
  - simpl. rewrite list_elem_of_singleton, within_FileNode.
    split; [by intros -> | by intros [-> _]].
Qed.

Lemma concat_map_insert {A B : Type} (f : A -> list B) (l : list A) k x x'
    (extra : list B) :
  l !! k = Some x -> f x' ≡ₚ extra ++ f x ->
  concat (map f (<[k := x']> l)) ≡ₚ extra ++ concat (map f l).
Proof.
  intros Hk Hx.
  rewrite <- (take_drop_middle l k x Hk) at 2.
  rewrite insert_take_drop by (by eapply lookup_lt_Some).
  rewrite !map_app, !concat_app. simpl. rewrite Hx.
  rewrite !app_assoc. apply Permutation_app_tail, Permutation_app_tail.
  apply Permutation_app_comm.
Qed.

(** The walk of one entry adds at most one File node, and then maps
    its path to the entry. *)
Lemma forEach_part_files entry parts :
  forall len i current fm current' fm',
    len = (i + length parts)%nat ->
    forEach_part entry len i parts current fm = Js.Ok (current', fm') ->
    (file_nodes current' ≡ₚ file_nodes current /\ fm' = fm) \/
    (exists name p,
        file_nodes current'
        ≡ₚ FileNode name p (zipEntry entry) :: file_nodes current /\
        fm' = <[p := entry]> fm).
Proof.
  induction parts as [| part rest IH];
    intros len i current fm current' fm' Hlen Hwalk.
  { inversion Hwalk; subst. by left. }
  destruct current as [cname cpath cs | ? ? ?]; [| done].
  simpl in Hwalk, Hlen.
  assert (Hlen' : len = (S i + length rest)%nat) by lia.
  destruct (list_find _ cs) as [[k ex] |] eqn:Hfind;
    destruct (dir entry || (i <? len - 1)%nat) eqn:Hflag.
  - destruct (forEach_part entry len (S i) rest ex fm)
      as [[ex' fm''] | e] eqn:Hrec; [| done].
    simpl in Hwalk. inversion Hwalk; subst current' fm''.
    apply list_find_name_Some in Hfind as [Hk _].
    rewrite !file_nodes_DirNode.
    destruct (IH _ _ _ _ _ _ Hlen' Hrec)
      as [[Hsame ->] | (name & p & Hnew & ->)].
    + left. split; [| done].
      by apply (concat_map_insert file_nodes cs k ex ex' []).
    + right. exists name, p. split; [| done].
      by apply (concat_map_insert file_nodes cs k ex ex'
                  [FileNode name p (zipEntry entry)]).
  - by eapply IH.
  - destruct (forEach_part entry len (S i) rest _ fm)
      as [[newDir' fm''] | e] eqn:Hrec; [| done].
    simpl in Hwalk. inversion Hwalk; subst current' fm''.
    rewrite !file_nodes_DirNode, map_app, concat_app. simpl.
    rewrite app_nil_r.
    destruct (IH _ _ _ _ _ _ Hlen' Hrec)
      as [[Hsame ->] | (name & p & Hnew & ->)]; simpl in *.
    + left. split; [| done]. by rewrite Hsame, app_nil_r.
    + right. exists name, p. split; [| done].
      rewrite Hnew. by rewrite Permutation_app_comm.
  - apply orb_false_iff in Hflag as [_ Hlast].
    apply Nat.ltb_ge in Hlast.
    destruct rest as [| part' rest]; [| simpl in Hlen; lia].
    simpl in Hwalk. inversion Hwalk; subst current' fm'.
    right. exists part, (cpath +:+ "/" +:+ part). split; [| done].
    rewrite !file_nodes_DirNode, map_app, concat_app. simpl.
    apply (Permutation_app_comm _ [_]).
Qed.

Lemma add_entry_indexed st key st' :
  add_entry st key = Js.Ok st' ->
  forall_dirs tidy st.1 -> forall_dirs neat st.1 ->
  indexed st.1 st.2 ->
  forall_dirs tidy st'.1 /\ forall_dirs neat st'.1 /\ indexed st'.1 st'.2.
Proof.
  intros Hadd Ht Hn [Hnodes Hkeys].
  pose proof (add_entry_tree st key) as Htree. rewrite Hadd in Htree.
  destruct st' as [t' fm']. destruct st as [t fm]. simpl in *.
  symmetry in Htree.
  pose proof (merge_parts_tidy _ _ _ _ Htree Ht) as Ht'.
  pose proof (merge_parts_neat _ _ _ _ (path_parts_segments _) Htree Hn)
    as Hn'.
  split; [done |]. split; [done |].
  destruct key as [relativePath entry]. unfold add_entry in Hadd.
  simpl in Hadd.
  apply forEach_part_files in Hadd; [| done].
  destruct Hadd as [[Hsame ->] | (name0 & p0 & Hnew & ->)].
  - split.
    + intros name p h Hin. rewrite Hsame in Hin. eauto.
    + intros p z Hp. destruct (Hkeys p z Hp) as [name Hin].
      exists name. by rewrite Hsame.
  - assert (Hin0 : FileNode name0 p0 (zipEntry entry) ∈ file_nodes t').
    { rewrite Hnew. by left. }
    split.
    + intros name p h Hin.
      destruct (decide (p = p0)) as [-> | Hp].
      * assert (FileNode name p0 h = FileNode name0 p0 (zipEntry entry))
          as [= -> ->].
        { apply file_nodes_within in Hin as [Hin _].
          apply file_nodes_within in Hin0 as [Hin0 _].
          by apply (paths_unique t'). }
        exists entry. by rewrite lookup_insert_Some; auto.
      * rewrite Hnew in Hin. apply elem_of_cons in Hin as [[= _ -> _] | Hin];
          [done |].
        destruct (Hnodes _ _ _ Hin) as (z & -> & Hz).
        exists z. split; [done |]. rewrite lookup_insert_Some. auto.
    + intros p z [[<- <-] | [Hp Hz]]%lookup_insert_Some; [by exists name0 |].
      destruct (Hkeys p z Hz) as [name Hin].
      exists name. rewrite Hnew. by right.
Qed.

Lemma forEach_entry_indexed files :
  forall st st',
    forEach_entry files st = Js.Ok st' ->
    forall_dirs tidy st.1 -> forall_dirs neat st.1 -> indexed st.1 st.2 ->
    indexed st'.1 st'.2.
Proof.
  induction files as [| key files IH]; intros st st' Hloop Ht Hn Hidx.
  { by inversion Hloop; subst. }
  simpl in Hloop. apply bind_Ok in Hloop as (st1 & Hadd & Hrest).
  destruct (add_entry_indexed _ _ _ Hadd Ht Hn Hidx) as (? & ? & ?).
  by eapply IH.
Qed.

Lemma file_nodes_sortStructure cmp t :
  file_nodes (sortStructure cmp t) ≡ₚ file_nodes t.
Proof.
  induction t as [name path cs IH | name path h] using Node_ind_forall;
    [| done].
  rewrite sortStructure_DirNode, !file_nodes_DirNode, map_map.
  rewrite Forall_forall in IH. etransitivity.
  - apply concat_map_pointwise. intros c Hc%elem_of_sort. by apply IH.
  - apply concat_map_permuted, sort_perm.
Qed.

(** X11.  [fileMap] indexes the File nodes of an archive tree by their
    paths: every File node holds an entry, which is what [fileMap] has
    under the path of the node; and [fileMap] has no other key. *)
Theorem fileMap_indexes_files (localeCompare : string -> string -> Z)
    (file : DroppedFile) (events : list Event) (r : ZipRoot) :
  extractZipStructure localeCompare file = (events, Js.Ok r) ->
  (forall name p h, within (FileNode name p h) (root r) ->
     exists z, h = zipEntry z /\ fileMap r !! p = Some z) /\
  (forall p z, fileMap r !! p = Some z ->
     exists name, within (FileNode name p (zipEntry z)) (root r)).
Proof.
  intros (files & _ & Hbuild)%extractZipStructure_Ok.
  apply build_zip_tree_root in Hbuild as (t & fm & Hloop & ->). simpl.
  apply forEach_entry_indexed in Hloop as [Hnodes Hkeys]; simpl in *.
  - split.
    + intros name p h Hin. apply (Hnodes name).
      rewrite <- (file_nodes_sortStructure localeCompare).
      by apply file_nodes_within.
    + intros p z Hp. destruct (Hkeys p z Hp) as [name Hin].
      exists name.
      rewrite <- (file_nodes_sortStructure localeCompare) in Hin.
      by apply file_nodes_within in Hin as [Hin _].
  - apply forall_dirs_DirNode. repeat constructor.
  - apply forall_dirs_DirNode. repeat constructor.
  - split; [by intros ? ? ? ?%elem_of_nil | by intros ? ? ?].
Qed.

Lemma fileMap_indexes_files_witness :
  exists z,
    zipEntry (mkZipObject "a/c/d.txt" false) = zipEntry z /\
    fileMap site_root !! "/a/c/d.txt" = Some z.
Proof.
  apply (proj1 (fileMap_indexes_files codepointCompare site [LoadAsync site]
                  site_root eq_refl) "d.txt").
  eapply within_child; [left |].
  eapply within_child; [left |].
  eapply within_child; [left | apply within_here].
Defined.

(** ** The name of the root of an archive tree *)

Lemma test_zip_suffix_cons c rest :
  test_zip_suffix (String c rest)
  = Js.is_dot_zip (String c rest) || test_zip_suffix rest.
Proof. reflexivity. Qed.

Lemma replace_zip_suffix_cons c rest :
  Js.replace_zip_suffix (String c rest)
  = if Js.is_dot_zip (String c rest) then ""
    else String c (Js.replace_zip_suffix rest).
Proof. reflexivity. Qed.

Lemma replace_zip_suffix_matched s :
  test_zip_suffix s = true ->
  exists ext, Js.is_dot_zip ext = true /\ s = Js.replace_zip_suffix s +:+ ext.
Proof.
  induction s as [| c rest IH]; [done |].
  rewrite test_zip_suffix_cons, replace_zip_suffix_cons.
  destruct (Js.is_dot_zip (String c rest)) eqn:Hzip.
  - intros _. by exists (String c rest).
  - intros (ext & Hext & Hrest)%IH. exists ext. split; [done |].
    rewrite string_app_cons. by rewrite <- Hrest.
Qed.

Lemma replace_zip_suffix_unmatched s :
  test_zip_suffix s = false -> Js.replace_zip_suffix s = s.
Proof.
  induction s as [| c rest IH]; [done |].
  rewrite test_zip_suffix_cons, replace_zip_suffix_cons.
  intros [-> Hrest]%orb_false_iff. by rewrite IH.
Qed.

(** X12.  The root of the tree of a dropped archive is named after the
    file: the name of the file is the name of the root followed by
    [.zip], in whatever case the file has it. *)
Theorem dropped_archive_root_name (localeCompare : string -> string -> Z)
    (items : list DataTransferItem) (r : ZipRoot) :
  dropped_structure localeCompare items = Js.Ok (ArchiveTree r) ->
  exists item rest dropped ext,
    items = item :: rest /\ getAsFile item = Some dropped /\
    Js.is_dot_zip ext = true /\
    file_name dropped = node_name (root r) +:+ ext.
Proof.
  unfold dropped_structure.
  destruct items as [| item rest]; [done |].
  intros Hdrop. exists item, rest.
  assert (exists dropped,
             getAsFile item = Some dropped /\
             test_zip_suffix (file_name dropped) = true /\
             (extractZipStructure localeCompare dropped).2 = Js.Ok r)
    as (dropped & Hfile & Htest & Hex).
  { destruct (webkitGetAsEntry item) as [[[f | d] |] |]; try done;
      (destruct (String.eqb (kind item) "file"); [| done]);
      (destruct (getAsFile item) as [dropped |]; [| done]);
      (destruct (test_zip_suffix (file_name dropped)) eqn:Htest; [| done]);
      (destruct (extractZipStructure localeCompare dropped).2 as [r' | e]
         eqn:Hex; [| done]);
      inversion Hdrop; subst; eauto. }
  exists dropped.
  destruct (replace_zip_suffix_matched _ Htest) as (ext & Hext & Hname).
  exists ext. split_and!; try done.
  destruct (extractZipStructure localeCompare dropped) as [events out] eqn:Hout.
  simpl in Hex. subst out.
  apply extractZipStructure_Ok in Hout as (files & _ & Hbuild).
  apply build_zip_tree_Ok in Hbuild as (t & Hmerge & ->).
  rewrite sortStructure_name.
  apply merge_entries_same in Hmerge as (-> & _ & _). done.
Qed.

Lemma dropped_archive_root_name_witness :
  exists item rest dropped ext,
    [mkItem None "file" (Some site)] = item :: rest /\
    getAsFile item = Some dropped /\
    Js.is_dot_zip ext = true /\
    file_name dropped = node_name (root site_root) +:+ ext.
Proof.
  exact (dropped_archive_root_name codepointCompare
           [mkItem None "file" (Some site)] site_root eq_refl).
Defined.

(** ** The rendering with icons *)

Lemma getAllFolderPaths_child c name path cs p :
  c ∈ cs -> p ∈ getAllFolderPaths c ->
  p ∈ getAllFolderPaths (DirNode name path cs).
Proof.
  intros Hc Hp. rewrite getAllFolderPaths_DirNode. right.
  apply list_elem_of_In, in_concat. exists (getAllFolderPaths c).
  split; [apply in_map, list_elem_of_In, Hc | by apply list_elem_of_In].
Qed.

Lemma Forall2_length_le {A B : Type} (g : A -> nat) (Q : A -> Prop)
    (l : list A) (yss : list (list B)) :
  Forall2 (fun x ys => (length ys <= g x)%nat /\
                       (Q x -> length ys = g x)) l yss ->
  (length (concat yss) <= list_sum (map g l))%nat /\
  (Forall Q l -> length (concat yss) = list_sum (map g l)).
Proof.
  induction 1 as [| x ys l yss [Hle Heq] _ [IHle IHeq]]; [done |].
  simpl. rewrite length_app. split; [lia |].
  intros [Hx Hl]%Forall_cons. rewrite Heq, IHeq by done. done.
Qed.

(** Below the root the renderer with icons never throws; it gives at
    most one line per node, and one line per node when every folder
    is expanded. *)
Lemma renderStructureWithIcons_inner (expandedFolders : gset string) t :
  forall prefix isLast,
  exists lines,
    renderStructureWithIcons expandedFolders t prefix isLast false
    = Js.Ok lines /\
    (length lines <= countItems t)%nat /\
    ((forall p, p ∈ getAllFolderPaths t -> p ∈ expandedFolders) ->
     length lines = countItems t).
Proof.
  induction t as [name path cs IH | name path h] using Node_ind_forall;
    intros prefix isLast; [| by eexists].
  destruct cs as [| c cs]; [by eexists |].
  cbn [renderStructureWithIcons node_path].
  destruct (bool_decide (path ∈ expandedFolders)) eqn:Hexp; simpl negb; cbv iota.
  - set (children := c :: cs) in *.
    edestruct (flatMap_result_Ok
                 (fun child i =>
                    renderStructureWithIcons expandedFolders child
                      (prefix +:+ (if isLast then "    " else "│   "))
                      (i =? length children - 1)%nat false)
                 (fun child ys =>
                    (length ys <= countItems child)%nat /\
                    ((forall p, p ∈ getAllFolderPaths child ->
                                p ∈ expandedFolders) ->
                     length ys = countItems child)) children)
      as (yss & Hyss & Hlen).
    { eapply Forall_impl; [exact IH |]. intros child Hchild i.
      apply Hchild. }
    rewrite Hyss. eexists. split; [done |].
    apply Forall2_length_le in Hlen as [Hle Heq].
    rewrite countItems_DirNode. simpl length. split; [lia |].
    intros Hall. f_equal. apply Heq, Forall_forall.
    intros child Hchild p Hp. apply Hall.
    by eapply getAllFolderPaths_child.
  - eexists. split; [done |]. rewrite countItems_DirNode. simpl length.
    split; [lia |]. intros Hall. apply bool_decide_eq_false in Hexp.
    destruct Hexp. apply Hall. rewrite getAllFolderPaths_DirNode. by left.
Qed.

(** X13.  On a tree whose root is a Directory the renderer with icons
    never throws and begins with the line of the root; it gives that
    line alone while the root is collapsed, never more lines than
    [countItems] counts items, and exactly that many once all folders
    are expanded. *)
Theorem icons_lines (expandedFolders : gset string) (name path : string)
    (cs : list Node) (prefix : string) (isLast : bool) :
  exists lines,
    renderStructureWithIcons expandedFolders (DirNode name path cs)
      prefix isLast true
    = Js.Ok (("📁 " +:+ name +:+ "/") :: lines) /\
    (path ∉ expandedFolders -> lines = []) /\
    (length (("📁 " +:+ name +:+ "/") :: lines)
     <= countItems (DirNode name path cs))%nat /\
    (areAllFoldersExpanded (Some (DirNode name path cs)) expandedFolders
     = true ->
     length (("📁 " +:+ name +:+ "/") :: lines)
     = countItems (DirNode name path cs)).
Proof.
  cbn [renderStructureWithIcons node_path node_name].
  destruct (bool_decide (path ∈ expandedFolders)) eqn:Hexp.
  - edestruct (flatMap_result_Ok
                 (fun child i =>
                    renderStructureWithIcons expandedFolders child "    "
                      (i =? length cs - 1)%nat false)
                 (fun child ys =>
                    (length ys <= countItems child)%nat /\
                    ((forall p, p ∈ getAllFolderPaths child ->
                                p ∈ expandedFolders) ->
                     length ys = countItems child)) cs)
      as (yss & Hyss & Hlen).
    { apply Forall_forall. intros child _ i.
      apply renderStructureWithIcons_inner. }
    rewrite Hyss. eexists. split; [done |].
    apply Forall2_length_le in Hlen as [Hle Heq].
    rewrite countItems_DirNode. simpl length. split_and!.
    + intros Hout. by apply bool_decide_eq_true in Hexp.
    + lia.
    + intros [_ Hall]%areAllFoldersExpanded_Some. f_equal.
      apply Heq, Forall_forall. intros child Hchild p Hp. apply Hall.
      by eapply getAllFolderPaths_child.
  - exists []. split; [done |]. rewrite countItems_DirNode. simpl length.
    split_and!; [done | lia |].
    intros [_ Hall]%areAllFoldersExpanded_Some.
    apply bool_decide_eq_false in Hexp.
    destruct Hexp. apply Hall. rewrite getAllFolderPaths_DirNode. by left.
Qed.

(** ** The name of the downloaded file *)

Lemma classify_kept s :
  forall skip,
    Forall (fun x => match x with
                     | Kept c => is_word_or_hyphen c = true
                     | _ => True
                     end) (classify skip s).
Proof.
  induction s as [| c rest IH]; intros skip; [constructor |].
  cbn [classify]. destruct skip as [| skip]; [| apply IH].
  destruct (space_width (String c rest)); constructor; try apply IH; try done.
  by destruct (is_word_or_hyphen c) eqn:Hc.
Qed.

Lemma drop_spaces_Forall (P : CharClass -> Prop) l :
  Forall P l -> Forall P (drop_spaces l).
Proof.
  induction 1 as [| x l Hx Hl IH]; [constructor |].
  destruct x; simpl; try done; by constructor.
Qed.

Lemma trim_Forall (P : CharClass -> Prop) l : Forall P l -> Forall P (trim l).
Proof.
  intros Hl. unfold trim.
  by apply Forall_rev, drop_spaces_Forall, Forall_rev, drop_spaces_Forall.
Qed.

Lemma remove_unsafe_Forall (P : CharClass -> Prop) l :
  Forall P l -> Forall P (remove_unsafe l).
Proof.
  unfold remove_unsafe. rewrite !Forall_forall.
  intros Hl x [Hx _]%list_elem_of_In%filter_In. by apply Hl, list_elem_of_In.
Qed.

Lemma dash_spaces_chars l :
  forall after_space,
    Forall (fun x => match x with
                     | Kept c => is_word_or_hyphen c = true
                     | _ => True
                     end) l ->
    all_chars is_word_or_hyphen (dash_spaces after_space l) = true.
Proof.
  induction l as [| x l IH]; intros after_space Hl; [done |].
  inversion Hl as [| ? ? Hx Hl']; subst.
  destruct x as [c | |]; simpl.
  - rewrite Hx. by apply IH.
  - destruct after_space; simpl; by apply IH.
  - by apply IH.
Qed.

Lemma space_width_word c rest :
  is_word_or_hyphen c = true -> space_width (String c rest) = 0%nat.
Proof.
  destruct c as [[] [] [] [] [] [] [] []]; intros H; vm_compute in H;
    try discriminate H; clear H;
    destruct rest as [| b [| k r]]; reflexivity.
Qed.

Lemma classify_word s :
  all_chars is_word_or_hyphen s = true ->
  classify 0 s = map Kept (list_ascii_of_string s).
Proof.
  induction s as [| c rest IH]; [done |].
  intros [Hc Hrest]%andb_true_iff.
  cbn [classify]. rewrite (space_width_word c rest Hc), Hc.
  simpl. by rewrite IH.
Qed.

Lemma trim_kept l : trim (map Kept l) = map Kept l.
Proof.
  unfold trim.
  assert (Hdrop : forall l', drop_spaces (map Kept l') = map Kept l')
    by (by intros []).
  by rewrite Hdrop, <- map_rev, Hdrop, <- map_rev, rev_involutive.
Qed.

Lemma remove_unsafe_kept l : remove_unsafe (map Kept l) = map Kept l.
Proof.
  unfold remove_unsafe. induction l as [| c l IH]; [done |].
  simpl. by rewrite IH.
Qed.

Lemma dash_spaces_kept l :
  forall after_space,
    dash_spaces after_space (map Kept l) = string_of_list_ascii l.
Proof.
  induction l as [| c l IH]; intros after_space; [done |].
  simpl. by rewrite IH.
Qed.

(** X14.  The file name [getSafeFilename] gives is always a non-empty
    run of letters, digits, underscores and hyphens followed by
    [-structure.txt]; a non-empty name made of such characters alone
    is kept as it is. *)
Theorem getSafeFilename_safe (name : string) :
  (exists base,
      getSafeFilename name = base +:+ "-structure.txt" /\
      base <> "" /\ all_chars is_word_or_hyphen base = true) /\
  (name <> "" -> all_chars is_word_or_hyphen name = true ->
   getSafeFilename name = name +:+ "-structure.txt").
Proof.
  unfold getSafeFilename. split.
  - destruct (String.length name =? 0)%nat; [by exists "folder" |].
    set (cleanName :=
           dash_spaces false (trim (remove_unsafe (classify 0 name)))).
    destruct (0 <? String.length cleanName)%nat eqn:Hlen;
      [| by exists "folder"].
    exists cleanName. split_and!; [done | |].
    + intros Hempty. by rewrite Hempty in Hlen.
    + apply dash_spaces_chars, trim_Forall, remove_unsafe_Forall,
        classify_kept.
  - intros Hname Hword.
    rewrite (classify_word _ Hword), remove_unsafe_kept, trim_kept,
      dash_spaces_kept, string_of_list_ascii_of_string.
    destruct name as [| c rest]; [done |]. done.
Qed.

(** ** Folders and files *)

(** X15.  [countItems] counts the folders that [getAllFolderPaths]
    lists and the File nodes: every node is one or the other, and none
    is counted twice. *)
Theorem items_are_folders_and_files (t : Node) :
  countItems t
  = (length (getAllFolderPaths t) + length (file_nodes t))%nat.
Proof.
  induction t as [name path cs IH | name path h] using Node_ind_forall;
    [| done].
  rewrite countItems_DirNode, getAllFolderPaths_DirNode, file_nodes_DirNode.
  simpl length. f_equal.
  induction IH as [| c cs Hc _ IHcs]; [done |].
  simpl. rewrite !length_app. lia.
Qed.

(** ** From a path back to its node *)

Lemma split_segment s :
  slash_free s = true -> Js.split "/"%char s = [s].
Proof.
  induction s as [| c rest IH]; [done |].
  simpl. intros [Hc Hrest]%andb_true_iff.
  apply negb_true_iff in Hc. rewrite Hc. by rewrite IH.
Qed.

Lemma split_segment_slash s x :
  slash_free s = true ->
  Js.split "/"%char (s +:+ String "/" x) = s :: Js.split "/"%char x.
Proof.
  induction s as [| c rest IH]; [done |].
  rewrite string_app_cons. simpl. intros [Hc Hrest]%andb_true_iff.
  apply negb_true_iff in Hc. rewrite Hc. by rewrite IH.
Qed.

(** Splitting a path as the name of an entry is split gives back the
    names it was made of. *)
Lemma path_parts_path_of q :
  Forall (fun s => is_segment s = true) q -> path_parts (path_of q) = q.
Proof.
  induction 1 as [| s q Hs Hq IH]; [done |].
  unfold is_segment in Hs. apply andb_true_iff in Hs as [Hlen Hfree].
  rewrite path_of_cons. unfold path_parts in *. simpl Js.split.
  rewrite filter_cons_False by done.
  destruct (path_of_head q) as [Hnone | [x Hsome]].
  - rewrite Hnone in *. rewrite string_app_nil_r, split_segment by done.
    rewrite filter_cons_True, filter_nil by done.
    by destruct q.
  - rewrite Hsome in *. rewrite split_segment_slash by done.
    rewrite filter_cons_True by done. f_equal.
    simpl Js.split in IH. by rewrite filter_cons_False in IH.
Qed.

(** X16.  A node of the tree of an archive is found again from its
    path: split as the name of an entry is split, the path gives the
    names that lead from the root to that very node. *)
Theorem archive_path_round_trip (localeCompare : string -> string -> Z)
    (file : DroppedFile) (events : list Event) (r : ZipRoot) (d : Node) :
  extractZipStructure localeCompare file = (events, Js.Ok r) ->
  within d (root r) ->
  lookup_path (path_parts (node_path d)) (root r) = Some d.
Proof.
  intros Hex Hd.
  pose proof (extractZipStructure_tidy _ _ _ _ Hex) as Ht.
  pose proof (extractZipStructure_neat _ _ _ _ Hex) as Hn.
  apply extractZipStructure_directory in Hex as [_ Hroot].
  destruct (within_position _ _ Ht Hn Hd) as (q & Hq & Hlook).
  rewrite (lookup_path_path _ _ _ Ht Hlook), Hroot.
  change ("" +:+ path_of q) with (path_of q).
  by rewrite path_parts_path_of.
Qed.

Lemma archive_path_round_trip_witness :
  lookup_path (path_parts (node_path d_txt)) (root site_root) = Some d_txt.
Proof.
  apply (archive_path_round_trip codepointCompare site [LoadAsync site]
           site_root d_txt eq_refl).
  eapply within_child; [left |].
  eapply within_child; [left |].
  eapply within_child; [left | apply within_here].
Defined.

(** ** The two views *)

(** X17.  The two components handle a drop alike: whatever is dropped
    and whatever the state before, [handleDrop] of the text view and
    [handleDrop] of the folder view end in the same state of [App]
    and the same [currentError].  (They differ on the way only: the
    text view clears the structure before it reads the drop, the
    folder view sets the expansion state itself.) *)
Theorem drop_handlers_agree (localeCompare : string -> string -> Z)
    (items : list DataTransferItem) (st : App.State * option string) :
  TextFolderStructure.handleDrop localeCompare items st
  = FolderStructure.handleDrop localeCompare items st.
Proof.
  unfold TextFolderStructure.handleDrop, FolderStructure.handleDrop.
  by destruct (dropped_structure localeCompare items).
Qed.
